(** * PotDB: the document engine, the replication receiver and the write
      orchestration, embedded from [src/storage/docs.ts],
      [src/replication/index.ts] and [src/api/docs.ts]. *)

From Stdlib Require Import ZArith NArith Ascii String Decimal DecimalString DecimalN.
From stdpp Require Import base option gmap strings list fin_maps sorting.

Local Open Scope string_scope.

(** ** ECMAScript primitives used by the engine *)

Module JS.

(** Truthiness of a string-or-undefined value: [undefined] and the empty
    string are falsy. *)
Definition truthy (v : option string) : bool :=
  match v with
  | None => false
  | Some s => negb (String.eqb s "")
  end.

(** [v || undefined] on a string-or-undefined value. *)
Definition or_undefined (v : option string) : option string :=
  if truthy v then v else None.

(** [a !== b] on string-or-undefined values. *)
Definition strict_ne (a b : option string) : bool :=
  match a, b with
  | None, None => false
  | Some x, Some y => negb (String.eqb x y)
  | _, _ => true
  end.

(** [s.indexOf(c)] for a one-character needle; [None] stands for -1. *)
Fixpoint indexOf (c : ascii) (s : string) : option nat :=
  match s with
  | EmptyString => None
  | String a rest =>
      if Ascii.eqb a c then Some 0%nat
      else match indexOf c rest with
           | Some i => Some (S i)
           | None => None
           end
  end.

(** [s.slice(0, n)] for [0 <= n]. *)
Definition slice0 (n : nat) (s : string) : string := substring 0 n s.

(** The part of the double-precision numbers the model keeps track of.
    [Exact n] is the integer [n], which is held without rounding up to
    [2^53]; [Untracked] is any other value (a fraction, an infinity, a
    rounded integer), which the model does not compute with. *)
Inductive number : Type :=
| NaN
| Exact (n : N)
| Untracked.

Definition max_exact : N := 2 ^ 53.

(** Characters that occur in some numeric string literal: digits, hex
    digits, radix prefixes, exponent markers, signs, the point and the
    letters of [Infinity]. *)
Definition literal_alphabet : string := "0123456789abcdefABCDEFxXoObB.+-Inity".

Definition printable (c : ascii) : bool :=
  (33 <=? nat_of_ascii c)%nat && (nat_of_ascii c <=? 126)%nat.

Fixpoint mem (c : ascii) (s : string) : bool :=
  match s with
  | EmptyString => false
  | String a rest => Ascii.eqb a c || mem c rest
  end.

(** A visible ASCII character that no numeric literal contains; it is not
    white space either, so trimming cannot remove it. *)
Definition never_numeric (c : ascii) : bool :=
  printable c && negb (mem c literal_alphabet).

Fixpoint any (p : ascii -> bool) (s : string) : bool :=
  match s with
  | EmptyString => false
  | String a rest => p a || any p rest
  end.

(** [Number(s)] on strings. A string of decimal digits denotes its value
    (the empty string denotes 0); a string holding a character that no
    numeric literal contains is [NaN]; the other literal forms (padding,
    fractions, exponents, radix prefixes, [Infinity]) and the integers
    above [2^53] are left untracked. *)
Definition Number (s : string) : number :=
  match NilEmpty.uint_of_string s with
  | Some d =>
      let n := N.of_uint d in
      if (n <=? max_exact)%N then Exact n else Untracked
  | None => if any never_numeric s then NaN else Untracked
  end.

(** [Number.isFinite(x)], where the model knows the answer. *)
Definition isFinite (x : number) : option bool :=
  match x with
  | NaN => Some false
  | Exact _ => Some true
  | Untracked => None
  end.

(** [x || 0] on numbers: [NaN] and 0 are falsy. *)
Definition or_zero (x : number) : number :=
  match x with
  | NaN => Exact 0
  | _ => x
  end.

(** [x + 1]; exact while the sum stays within [2^53]. *)
Definition add1 (x : number) : number :=
  match x with
  | NaN => NaN
  | Exact n => if (n <? max_exact)%N then Exact (n + 1) else Untracked
  | Untracked => Untracked
  end.

(** The text [`${x}`] of a tracked number. *)
Definition toString (x : number) : option string :=
  match x with
  | NaN => Some "NaN"
  | Exact n => Some (NilEmpty.string_of_uint (N.to_uint n))
  | Untracked => None
  end.

End JS.

(** ** UUID version 4 (package [uuid]) *)

Module Uuid.

Definition hex_digit (z : Z) : ascii :=
  match String.get (Z.to_nat (Z.land z 15)) "0123456789abcdef" with
  | Some c => c
  | None => "0"%char
  end.

(** The [w] low hexadecimal digits of [z], most significant first. *)
Fixpoint hex_field (w : nat) (z : Z) : string :=
  match w with
  | O => ""
  | S w' => String (hex_digit (Z.shiftr z (4 * Z.of_nat w'))) (hex_field w' z)
  end.

(** The canonical 8-4-4-4-12 text of the 128 random bits [r], with the
    version nibble set to 4 and the variant bits to 10. *)
Definition format (r : Z) : string :=
  hex_field 8 (Z.shiftr r 96) ++ "-" ++
  hex_field 4 (Z.shiftr r 80) ++ "-" ++
  "4" ++ hex_field 3 (Z.shiftr r 64) ++ "-" ++
  String (hex_digit (Z.lor 8 (Z.land (Z.shiftr r 60) 3))) (hex_field 3 (Z.shiftr r 48)) ++ "-" ++
  hex_field 12 r.

Definition is_hex (c : ascii) : bool := JS.mem c "0123456789abcdef".

End Uuid.

(** ** Data model *)

(** JSON values carried by a document's free attributes. *)
#[warnings="-register-all"]
Inductive json : Type :=
| JNull
| JBool (b : bool)
| JNum (z : Z)
| JStr (s : string)
| JArr (items : list json)
| JObj (members : list (string * json)).

(** [type Doc = { _id: string; _rev?: string; [key: string]: any }]. *)
Record Doc : Type := mkDoc {
  _id : string;
  _rev : option string;
  attrs : gmap string json;
}.

(** [Partial<Doc>], also the shape of a request body read as a document. *)
Record PartialDoc : Type := mkPartial {
  p_id : option string;
  p_rev : option string;
  p_attrs : gmap string json;
}.

(** A value held by LevelDB under a key. The text written by
    [JSON.stringify(doc)] is kept as the document [JSON.parse] reads back
    from it; [Corrupt] is any text that [JSON.parse] rejects. *)
Inductive stored : Type :=
| Json (d : Doc)
| Corrupt (bytes : string).

Definition JSON_stringify (d : Doc) : stored := Json d.

(** [parseJSON]: [JSON.parse] with every exception turned into [undefined]. *)
Definition parseJSON (s : stored) : option Doc :=
  match s with
  | Json d => Some d
  | Corrupt _ => None
  end.

(** Errors as thrown: [e.status] and [e.message]. *)
Record error : Type := mkError {
  status : option nat;
  message : string;
}.

(** Change records of [src/replication/index.ts]. *)
Inductive ReplicateMsg : Type :=
| ReplicatePut (id : string) (prevRev : option string) (rev : option string) (doc : Doc)
| ReplicateDel (id : string) (prevRev : option string).

(** The process and its surroundings: the LevelDB contents, the random
    bits [uuidv4] consumes, the configured peers and what a POST to a peer
    answers ([None]: unreachable or timed out). *)
Record World : Type := mkWorld {
  kv : gmap string stored;
  entropy : nat -> Z;
  drawn : nat;
  peers : list string;
  network : string -> ReplicateMsg -> option nat;
}.

Definition with_kv (w : World) (m : gmap string stored) : World :=
  {| kv := m; entropy := entropy w; drawn := drawn w;
     peers := peers w; network := network w |}.

(** ** Computations: state, thrown errors, and the edge of the number model *)

Inductive outcome (A : Type) : Type :=
| Ok (a : A)
| Throw (e : error)
| OutOfModel.
Arguments Ok {A} a.
Arguments Throw {A} e.
Arguments OutOfModel {A}.

Definition M (A : Type) : Type := World -> outcome A * World.

Definition ret {A} (a : A) : M A := fun w => (Ok a, w).

Definition bind {A B} (m : M A) (k : A -> M B) : M B :=
  fun w =>
    match m w with
    | (Ok a, w') => k a w'
    | (Throw e, w') => (Throw e, w')
    | (OutOfModel, w') => (OutOfModel, w')
    end.

Definition throw {A} (e : error) : M A := fun w => (Throw e, w).

Definition untracked {A} : M A := fun w => (OutOfModel, w).

(** [try { m } catch (e) { h e }]. *)
Definition try_catch {A} (m : M A) (h : error -> M A) : M A :=
  fun w =>
    match m w with
    | (Throw e, w') => h e w'
    | r => r
    end.

Notation "'let*' x ':=' m 'in' k" := (bind m (fun x => k))
  (at level 10, x name, m at level 100, k at level 200).
Notation "m ';;' k" := (bind m (fun _ => k))
  (at level 100, k at level 200, right associativity).

(** The world after one more draw of random bits. *)
Definition drew (w : World) : World :=
  {| kv := kv w; entropy := entropy w; drawn := S (drawn w);
     peers := peers w; network := network w |}.

(** [uuidv4()]: consumes the next 128 random bits. *)
Definition uuidv4 : M string :=
  fun w => (Ok (Uuid.format (entropy w (drawn w))), drew w).

(** LevelDB, reached through [db.get], [db.put] and [db.del]. A missing key
    makes [db.get] fail with [notFound], which every caller catches and
    reads as [undefined]; that is the [None] here. *)
Definition db_get (key : string) : M (option stored) :=
  fun w => (Ok (kv w !! key), w).

Definition db_put (key : string) (v : stored) : M unit :=
  fun w => (Ok tt, with_kv w (<[key := v]> (kv w))).

Definition db_del (key : string) : M unit :=
  fun w => (Ok tt, with_kv w (delete key (kv w))).

(** ** The document engine ([src/storage/docs.ts]) *)

(** The text of the next generation: [`${(n || 0) + 1}`] with [n] read
    from the prefix of [prev] before its first dash. *)
Definition next_generation (prev : string) : option string :=
  let n :=
    match JS.indexOf "-" prev with
    | Some (S d) =>
        let num := JS.Number (JS.slice0 (S d) prev) in
        match JS.isFinite num with
        | Some true => Some num
        | Some false => Some (JS.Exact 0)
        | None => None
        end
    | _ => Some (JS.Exact 0)
    end in
  match n with
  | Some n => JS.toString (JS.add1 (JS.or_zero n))
  | None => None
  end.

Definition nextRev (prev : option string) : M string :=
  if negb (JS.truthy prev) then
    let* u := uuidv4 in ret ("1-" ++ JS.slice0 8 u)
  else
    match prev ≫= next_generation with
    | Some next => let* u := uuidv4 in ret (next ++ "-" ++ JS.slice0 8 u)
    | None => untracked
    end.

(** [nextRev] with the addition followed one step past the exact range:
    [2^53 + 1] lies halfway between the doubles [2^53] and [2^53 + 2] and
    rounds to the even one, [2^53], whose text is its decimal digits. At
    every other argument these are the functions above. *)
Module Rounded.

Definition add1 (x : JS.number) : JS.number :=
  match x with
  | JS.Exact n => if (n =? JS.max_exact)%N then JS.Exact n else JS.add1 x
  | _ => JS.add1 x
  end.

Definition next_generation (prev : string) : option string :=
  let n :=
    match JS.indexOf "-" prev with
    | Some (S d) =>
        let num := JS.Number (JS.slice0 (S d) prev) in
        match JS.isFinite num with
        | Some true => Some num
        | Some false => Some (JS.Exact 0)
        | None => None
        end
    | _ => Some (JS.Exact 0)
    end in
  match n with
  | Some n => JS.toString (add1 (JS.or_zero n))
  | None => None
  end.

Definition nextRev (prev : option string) : M string :=
  if negb (JS.truthy prev) then
    let* u := uuidv4 in ret ("1-" ++ JS.slice0 8 u)
  else
    match prev ≫= next_generation with
    | Some next => let* u := uuidv4 in ret (next ++ "-" ++ JS.slice0 8 u)
    | None => untracked
    end.

End Rounded.

Definition conflict_mismatch : error :=
  {| status := Some 409%nat; message := "conflict: revision mismatch" |}.
Definition conflict_missing : error :=
  {| status := Some 409%nat; message := "conflict: document does not exist" |}.
Definition invalid_missing_rev : error :=
  {| status := Some 400%nat; message := "invalid: missing _rev for remote put" |}.

(** [db.get] followed by [parseJSON], with [notFound] read as [undefined]. *)
Definition load (id : string) : M (option Doc) :=
  let* str := db_get id in ret (str ≫= parseJSON).

Definition get (id : string) : M (option Doc) := load id.

(** [{ ...existing, ...input, _id }]. *)
Definition spread (existing : option Doc) (input : PartialDoc) (id : string) : Doc :=
  {| _id := id;
     _rev := match p_rev input with
             | Some r => Some r
             | None => existing ≫= _rev
             end;
     attrs := p_attrs input ∪ from_option attrs ∅ existing |}.

Definition set_rev (d : Doc) (r : string) : Doc :=
  {| _id := _id d; _rev := Some r; attrs := attrs d |}.

(** The body shared by [put] and the transaction's [casPut]. *)
Definition casPut (id : string) (input : PartialDoc) : M Doc :=
  let* existing := load id in
  (match existing with
   | Some ex =>
       if negb (JS.truthy (p_rev input)) || JS.strict_ne (p_rev input) (_rev ex)
       then throw conflict_mismatch else ret tt
   | None =>
       if JS.truthy (p_rev input) then throw conflict_missing else ret tt
   end) ;;
  let next := spread existing input id in
  let* r := nextRev (existing ≫= _rev) in
  let next := set_rev next r in
  db_put id (JSON_stringify next) ;;
  ret next.

(** [input._id || uuidv4()]. *)
Definition id_or_uuid (id : option string) : M string :=
  match id with
  | Some s => if JS.truthy (Some s) then ret s else uuidv4
  | None => uuidv4
  end.

Definition put (input : PartialDoc) : M Doc :=
  let* id := id_or_uuid (p_id input) in
  casPut id input.

Definition del (id : string) : M unit := db_del id.

(** [{ ...doc, _id }]. *)
Definition force_id (doc : Doc) (id : string) : Doc :=
  {| _id := id; _rev := _rev doc; attrs := attrs doc |}.

Definition casReplace (id : string) (doc : Doc) (expectedPrevRev : option string) : M unit :=
  let* existing := load id in
  let currentRev := existing ≫= _rev in
  if JS.strict_ne (JS.or_undefined currentRev) (JS.or_undefined expectedPrevRev)
  then throw conflict_mismatch
  else db_put id (JSON_stringify (force_id doc id)).

Definition casDelete (id : string) (prevRev : option string) : M unit :=
  let* existing := load id in
  let currentRev := existing ≫= _rev in
  (match prevRev with
   | Some _ =>
       if JS.strict_ne (JS.or_undefined currentRev) (JS.or_undefined prevRev)
       then throw conflict_mismatch else ret tt
   | None => ret tt
   end) ;;
  match existing with
  | Some _ => db_del id
  | None => ret tt
  end.

Record DocTransaction : Type := mkTx {
  tx_get : M (option Doc);
  tx_put : PartialDoc -> M Doc;
  tx_del : option string -> M unit;
  tx_replaceExact : Doc -> option string -> M unit;
}.

(** The per-[_id] mutex serialises the bodies run on one [_id]; a body is
    therefore run here as one uninterrupted computation on the world.
    [Locking.withDocTransaction] below adds the [acquire] before the body
    and the [release] after it. *)
Definition withDocTransaction {T} (id : string) (fn : DocTransaction -> M T) : M T :=
  fn {| tx_get := load id;
        tx_put := casPut id;
        tx_del := casDelete id;
        tx_replaceExact := casReplace id |}.

Definition applyRemotePut (doc : Doc) (prevRev : option string) : M Doc :=
  let id := _id doc in
  if negb (JS.truthy (_rev doc)) then throw invalid_missing_rev
  else
    let* existing := load id in
    let currentRev := existing ≫= _rev in
    if JS.strict_ne (JS.or_undefined currentRev) (JS.or_undefined prevRev)
    then throw conflict_mismatch
    else
      let toStore := force_id doc id in
      db_put id (JSON_stringify toStore) ;;
      ret toStore.

Definition applyRemoteDel (id : string) (prevRev : option string) : M unit :=
  let* existing := load id in
  let currentRev := existing ≫= _rev in
  if JS.strict_ne (JS.or_undefined currentRev) (JS.or_undefined prevRev)
  then throw conflict_mismatch
  else match existing with
       | Some _ => db_del id
       | None => ret tt
       end.

(** ** The replication client and receiver ([src/replication/index.ts]) *)

Inductive reply : Type :=
| BodyDoc (d : Doc)
| BodyError (msg : string)
| BodyOk
| BodyEmpty.

Record Response : Type := mkResponse {
  code : nat;
  payload : reply;
}.

Fixpoint drop_last_slash (s : string) : option string :=
  match s with
  | EmptyString => None
  | String a EmptyString => if Ascii.eqb a "/" then Some "" else None
  | String a rest => String a <$> drop_last_slash rest
  end.

(** [base.endsWith('/') ? `${base.slice(0, -1)}/replicate` : `${base}/replicate`]. *)
Definition peer_url (base : string) : string :=
  match drop_last_slash base with
  | Some b => b ++ "/replicate"
  | None => base ++ "/replicate"
  end.

Inductive peer_result : Type := ack | conflict | failure.

Definition peer_result_eqb (a b : peer_result) : bool :=
  match a, b with
  | ack, ack | conflict, conflict | failure, failure => true
  | _, _ => false
  end.

Definition classify (res : option nat) : peer_result :=
  match res with
  | Some st => if (st =? 200)%nat then ack
               else if (st =? 409)%nat then conflict
               else failure
  | None => failure
  end.

Record PushResult : Type := mkPush {
  acks : list string;
  conflicts : list string;
  failures : list string;
}.

Definition pushToPeers (change : ReplicateMsg) : M PushResult :=
  fun w =>
    let results :=
      map (fun base => (base, classify (network w (peer_url base) change))) (peers w) in
    let pick t := map fst (List.filter (fun r => peer_result_eqb (snd r) t) results) in
    (Ok {| acks := pick ack; conflicts := pick conflict; failures := pick failure |}, w).

(** [e?.status || 500]. *)
Definition status_or_500 (e : error) : nat :=
  match status e with
  | Some O | None => 500%nat
  | Some st => st
  end.

(** [e?.message || fallback]. *)
Definition message_or (e : error) (fallback : string) : string :=
  if JS.truthy (Some (message e)) then message e else fallback.

(** The body of [POST /replicate] as parsed by [express.json()]. *)
Record ReplicateBody : Type := mkBody {
  op : option string;
  body_id : option string;
  body_prevRev : option string;
  body_rev : option string;
  body_doc : option PartialDoc;
}.

Definition doc_of_partial (d : PartialDoc) : option Doc :=
  match p_id d with
  | Some i => Some {| _id := i; _rev := p_rev d; attrs := p_attrs d |}
  | None => None
  end.

Definition bad_request (msg : string) : Response :=
  {| code := 400; payload := BodyError msg |}.

Definition replicate_post (body : option ReplicateBody) : M Response :=
  match body with
  | None => ret (bad_request "invalid payload")
  | Some b =>
      if negb (JS.truthy (op b)) || negb (JS.truthy (body_id b))
      then ret (bad_request "invalid payload")
      else
        try_catch
          (if negb (JS.strict_ne (op b) (Some "put")) then
             match body_doc b with
             | None => ret (bad_request "invalid put payload")
             | Some doc =>
                 if JS.strict_ne (p_id doc) (body_id b) || JS.strict_ne (p_rev doc) (body_rev b)
                 then ret (bad_request "invalid put payload")
                 else
                   match doc_of_partial doc with
                   | Some d =>
                       applyRemotePut d (body_prevRev b) ;;
                       ret {| code := 200; payload := BodyOk |}
                   | None => untracked
                   end
             end
           else if negb (JS.strict_ne (op b) (Some "del")) then
             match body_id b with
             | Some i =>
                 applyRemoteDel i (body_prevRev b) ;;
                 ret {| code := 200; payload := BodyOk |}
             | None => untracked
             end
           else ret (bad_request "invalid op"))
          (fun e => ret {| code := status_or_500 e; payload := BodyError (message_or e "error") |})
  end.

(** ** Write orchestration ([src/api/docs.ts]) *)

Definition empty_body : PartialDoc :=
  {| p_id := None; p_rev := None; p_attrs := ∅ |}.

Definition replication_conflict : error :=
  {| status := Some 409%nat; message := "replication conflict" |}.

Definition has_conflicts (r : PushResult) : bool :=
  (0 <? length (conflicts r))%nat.

(** The function handed to [withDocTransaction] by [POST /api/docs]. *)
Definition post_body (desiredId : string) (incoming : PartialDoc) (tx : DocTransaction) : M Doc :=
  let* prev := tx_get tx in
  let* saved := tx_put tx {| p_id := Some desiredId; p_rev := p_rev incoming;
                             p_attrs := p_attrs incoming |} in
  let change := ReplicatePut (_id saved) (prev ≫= _rev) (_rev saved) saved in
  let* pushed := pushToPeers change in
  if has_conflicts pushed then
    (match prev with
     | Some p => tx_replaceExact tx p (_rev saved)
     | None => tx_del tx (_rev saved)
     end) ;;
    throw replication_conflict
  else ret saved.

Definition docs_post (body : option PartialDoc) : M Response :=
  let incoming := default empty_body body in
  let* desiredId := id_or_uuid (p_id incoming) in
  try_catch
    (let* result := withDocTransaction desiredId (post_body desiredId incoming) in
     ret {| code := 201; payload := BodyDoc result |})
    (fun e => ret {| code := status_or_500 e;
                     payload := BodyError (message_or e "Internal Error") |}).

(** The function handed to [withDocTransaction] by [DELETE /api/docs/:id]. *)
Definition delete_body (id : string) (tx : DocTransaction) : M unit :=
  let* prev := tx_get tx in
  tx_del tx None ;;
  let* pushed := pushToPeers (ReplicateDel id (prev ≫= _rev)) in
  if has_conflicts pushed then
    (match prev with
     | Some p => tx_replaceExact tx p None
     | None => ret tt
     end) ;;
    throw replication_conflict
  else ret tt.

Definition docs_delete (id : string) : M Response :=
  try_catch
    (withDocTransaction id (delete_body id) ;;
     ret {| code := 204; payload := BodyEmpty |})
    (fun e => ret {| code := status_or_500 e;
                     payload := BodyError (message_or e "Internal Error") |}).

(** ** The read routes of [src/api/docs.ts] and the key listing *)

(** [db.keys({ limit })]: LevelDB yields its keys in bytewise order and
    stops after [limit] of them. *)
Definition db_keys (limit : nat) : M (list string) :=
  fun w => (Ok (take limit (merge_sort String.le (map fst (map_to_list (kv w))))), w).

Definition listIds (limit : nat) : M (list string) := db_keys limit.

(** [GET /api/docs]: the status and the [ids] of the body. *)
Definition docs_list : M (nat * list string) :=
  let* ids := listIds 1000 in ret (200%nat, ids).

(** [GET /api/docs/:id]. *)
Definition docs_get (id : string) : M Response :=
  let* doc := get id in
  match doc with
  | None => ret {| code := 404; payload := BodyError "Not found" |}
  | Some d => ret {| code := 200; payload := BodyDoc d |}
  end.

(** The body a receiver's [express.json()] reads from the
    [JSON.stringify(change)] that [pushToPeers] posts; an [undefined]
    field is left out of the text and so is absent on arrival. *)
Definition wire (change : ReplicateMsg) : ReplicateBody :=
  match change with
  | ReplicatePut id prevRev rev doc =>
      {| op := Some "put"; body_id := Some id; body_prevRev := prevRev; body_rev := rev;
         body_doc := Some {| p_id := Some (_id doc); p_rev := _rev doc;
                             p_attrs := attrs doc |} |}
  | ReplicateDel id prevRev =>
      {| op := Some "del"; body_id := Some id; body_prevRev := prevRev; body_rev := None;
         body_doc := None |}
  end.

(** ** The per-document mutex ([class Mutex] of [src/storage/docs.ts]) *)

(** The fields of a [Mutex]. A queued thunk [() => resolve(release)] is
    named by the caller whose [acquire()] promise it resolves. *)
Record Mutex : Type := mkMutex {
  queue : list nat;
  locked : bool;
}.

Definition new_Mutex : Mutex := {| queue := []; locked := false |}.

(** [acquire()] by [caller]; the second component is the caller whose
    promise resolves during the call, if any. *)
Definition acquire (caller : nat) (m : Mutex) : Mutex * option nat :=
  if negb (locked m)
  then ({| queue := queue m; locked := true |}, Some caller)
  else ({| queue := (queue m ++ [caller])%list; locked := locked m |}, None).

(** The [release] closure; the second component is the waiter whose
    promise it resolves, if any. *)
Definition release (m : Mutex) : Mutex * option nat :=
  match queue m with
  | next :: rest => ({| queue := rest; locked := locked m |}, Some next)
  | [] => ({| queue := []; locked := false |}, None)
  end.

Definition isLocked (m : Mutex) : bool := locked m.

Inductive mutex_event : Type :=
| Acquire (caller : nat)
| Release.

Definition mutex_step (m : Mutex) (e : mutex_event) : Mutex * option nat :=
  match e with
  | Acquire caller => acquire caller m
  | Release => release m
  end.

(** The mutex after a sequence of calls, and the callers that were given
    the lock, in the order in which they got it. *)
Fixpoint mutex_run (m : Mutex) (es : list mutex_event) : Mutex * list nat :=
  match es with
  | [] => (m, [])
  | e :: rest =>
      let step := mutex_step m e in
      let later := mutex_run (fst step) rest in
      (fst later, (option_list (snd step) ++ snd later)%list)
  end.

(** Every [release] in the sequence is called while the mutex is held. *)
Fixpoint released_by_holder (m : Mutex) (es : list mutex_event) : bool :=
  match es with
  | [] => true
  | e :: rest =>
      match e with
      | Release => locked m
      | Acquire _ => true
      end && released_by_holder (fst (mutex_step m e)) rest
  end.

(** The callers of [acquire], in order of arrival. *)
Fixpoint arrivals (es : list mutex_event) : list nat :=
  match es with
  | [] => []
  | Acquire caller :: rest => caller :: arrivals rest
  | Release :: rest => arrivals rest
  end.

Fixpoint releases (es : list mutex_event) : nat :=
  match es with
  | [] => 0
  | Release :: rest => S (releases rest)
  | Acquire _ :: rest => releases rest
  end.

(** ** The transaction scope and its mutex ([getMutex], [withDocTransaction]) *)

Module Locking.

(** A process: the world of the engine and the table [mutexes]. *)
Record Node : Type := mkNode {
  store : World;
  mutexes : gmap string Mutex;
}.

(** A computation of the engine, run in a process. The engine's
    computations hold no reference to the table of mutexes. *)
Definition in_store {A} (m : M A) (n : Node) : outcome A * Node :=
  (fst (m (store n)), {| store := snd (m (store n)); mutexes := mutexes n |}).

Definition getMutex (id : string) (n : Node) : Mutex * Node :=
  match mutexes n !! id with
  | Some m => (m, n)
  | None => (new_Mutex, {| store := store n; mutexes := <[id := new_Mutex]> (mutexes n) |})
  end.

(** A call on the mutex object of [id] changes the object that the table
    holds under [id]. *)
Definition set_mutex (id : string) (m : Mutex) (n : Node) : Node :=
  {| store := store n; mutexes := <[id := m]> (mutexes n) |}.

(** [getMutex(id).isLocked()], without creating the mutex. *)
Definition is_held (id : string) (n : Node) : bool :=
  match mutexes n !! id with
  | Some m => isLocked m
  | None => false
  end.

(** [withDocTransaction] from the point where [await acquire()] has
    returned: the body run on the transaction, then [release()] in the
    [finally] block, whether the body returned or threw. [release] acts
    on the mutex that [getMutex] put in the table, which never loses an
    entry. *)
Definition holding {T} (id : string) (fn : DocTransaction -> M T) (n : Node)
  : outcome T * Node :=
  let ran := in_store (withDocTransaction id fn) n in
  let m := default new_Mutex (mutexes (snd ran) !! id) in
  (fst ran, set_mutex id (fst (release m)) (snd ran)).

(** What one uninterrupted run shows of an [async] call: it finished, or
    it is parked in the queue of a mutex until a [release] resumes it. *)
Inductive progress (A : Type) : Type :=
| Finished (r : outcome A) (n : Node)
| Parked (n : Node).

Arguments Finished {A} r n.
Arguments Parked {A} n.

Definition withDocTransaction {T} (caller : nat) (id : string)
    (fn : DocTransaction -> M T) (n : Node) : progress T :=
  let got := getMutex id n in
  let acquired := acquire caller (fst got) in
  let n1 := set_mutex id (fst acquired) (snd got) in
  match snd acquired with
  | Some _ => let ran := holding id fn n1 in Finished (fst ran) (snd ran)
  | None => Parked n1
  end.

(** The response of [POST /api/docs] to what the transaction returned or
    threw. *)
Definition post_response (r : outcome Doc) : outcome Response :=
  match r with
  | Ok result => Ok {| code := 201; payload := BodyDoc result |}
  | Throw e => Ok {| code := status_or_500 e;
                     payload := BodyError (message_or e "Internal Error") |}
  | OutOfModel => OutOfModel
  end.

(** [POST /api/docs] from the point where the lock on [desiredId] has
    been granted. *)
Definition docs_post_holding (desiredId : string) (incoming : PartialDoc) (n : Node)
  : outcome Response * Node :=
  let ran := holding desiredId (post_body desiredId incoming) n in
  (post_response (fst ran), snd ran).

Definition docs_post (caller : nat) (body : option PartialDoc) (n : Node)
  : progress Response :=
  let incoming := default empty_body body in
  let chosen := in_store (id_or_uuid (p_id incoming)) n in
  match fst chosen with
  | Ok desiredId =>
      match withDocTransaction caller desiredId (post_body desiredId incoming)
                               (snd chosen) with
      | Finished r n' => Finished (post_response r) n'
      | Parked n' => Parked n'
      end
  | Throw e => Finished (Throw e) (snd chosen)
  | OutOfModel => Finished OutOfModel (snd chosen)
  end.

End Locking.

(** ** Text helpers of the configuration and authentication code *)

(** Here a string is a sequence of code units below 256. *)
Module Text.

(** The white space and line terminators that [trim()] strips, among the
    code units below 256: TAB, LF, VT, FF, CR, SP and NBSP. *)
Definition is_space (c : ascii) : bool :=
  let n := nat_of_ascii c in
  ((9 <=? n)%nat && (n <=? 13)%nat) || (n =? 32)%nat || (n =? 160)%nat.

Fixpoint trim_start (s : string) : string :=
  match s with
  | EmptyString => EmptyString
  | String c rest => if is_space c then trim_start rest else s
  end.

Fixpoint trim_end (s : string) : string :=
  match s with
  | EmptyString => EmptyString
  | String c rest =>
      match trim_end rest with
      | EmptyString => if is_space c then EmptyString else String c EmptyString
      | r => String c r
      end
  end.

(** [s.trim()]. *)
Definition trim (s : string) : string := trim_end (trim_start s).

(** Puts a character in front of the first piece. *)
Definition push (c : ascii) (pieces : list string) : list string :=
  match pieces with
  | piece :: rest => String c piece :: rest
  | [] => [String c EmptyString]
  end.

(** [s.split(sep)] for a one-character separator. *)
Fixpoint split (sep : ascii) (s : string) : list string :=
  match s with
  | EmptyString => [EmptyString]
  | String c rest =>
      if Ascii.eqb c sep then EmptyString :: split sep rest
      else push c (split sep rest)
  end.

(** [s.split(/\r?\n/)]. *)
Fixpoint split_lines (s : string) : list string :=
  match s with
  | EmptyString => [EmptyString]
  | String c rest =>
      if Ascii.eqb c "010" then EmptyString :: split_lines rest
      else if Ascii.eqb c "013" then
        match rest with
        | String c' _ => if Ascii.eqb c' "010" then split_lines rest
                         else push c (split_lines rest)
        | EmptyString => push c (split_lines rest)
        end
      else push c (split_lines rest)
  end.

(** [toLowerCase()] on one code unit below 256. *)
Definition lower_char (c : ascii) : ascii :=
  let n := nat_of_ascii c in
  if ((65 <=? n)%nat && (n <=? 90)%nat)
     || ((192 <=? n)%nat && (n <=? 222)%nat && negb (n =? 215)%nat)
  then ascii_of_nat (n + 32) else c.

Fixpoint toLowerCase (s : string) : string :=
  match s with
  | EmptyString => EmptyString
  | String c rest => String (lower_char c) (toLowerCase rest)
  end.

(** [s.startsWith(p)]. *)
Definition startsWith (p s : string) : bool := String.prefix p s.

(** [s.slice(n)] for [0 <= n]. *)
Fixpoint slice_from (n : nat) (s : string) : string :=
  match n, s with
  | O, _ => s
  | S n', String _ rest => slice_from n' rest
  | S _, EmptyString => EmptyString
  end.

(** The text before the last occurrence of [c] and the text after it. *)
Fixpoint split_last (c : ascii) (s : string) : option (string * string) :=
  match s with
  | EmptyString => None
  | String a rest =>
      match split_last c rest with
      | Some (before, after) => Some (String a before, after)
      | None => if Ascii.eqb a c then Some (EmptyString, rest) else None
      end
  end.

Definition is_digit (c : ascii) : bool :=
  (48 <=? nat_of_ascii c)%nat && (nat_of_ascii c <=? 57)%nat.

(** A line terminator, which [.] in a regular expression does not match. *)
Definition is_line_break (c : ascii) : bool :=
  Ascii.eqb c "010" || Ascii.eqb c "013".

(** [s.replace(/:\/\/$/, '')]. *)
Fixpoint drop_scheme_suffix (s : string) : string :=
  match s with
  | EmptyString => EmptyString
  | String c rest =>
      if String.eqb s "://" then EmptyString else String c (drop_scheme_suffix rest)
  end.

End Text.

(** [a || b] on strings that may be undefined. *)
Definition or_else (a b : option string) : option string :=
  if JS.truthy a then a else b.

(** ** Bearer tokens ([src/auth/index.ts]) *)

(** The environment [loadTokens] reads; [read_file] is [fs.readFileSync]
    on the configured path, [None] where it throws. *)
Record TokenEnv : Type := mkTokenEnv {
  POTDB_TOKENS : option string;
  POTDB_TOKEN : option string;
  POTDB_TOKENS_FILE : option string;
  read_file : string -> option string;
}.

(** [tokens.add(t)] on a [Set], kept in insertion order. *)
Definition add_token (tokens : list string) (t : string) : list string :=
  if bool_decide (t ∈ tokens) then tokens else (tokens ++ [t])%list.

Definition nonempty (s : string) : bool := JS.truthy (Some s).

Definition loadTokens (env : TokenEnv) : list string :=
  let envList := default "" (or_else (POTDB_TOKENS env) (Some "")) in
  let tokens :=
    foldl add_token [] (List.filter nonempty (map Text.trim (Text.split "," envList))) in
  let single := Text.trim (default "" (or_else (POTDB_TOKEN env) (Some ""))) in
  let tokens := if nonempty single then add_token tokens single else tokens in
  let filePath := Text.trim (default "" (or_else (POTDB_TOKENS_FILE env) (Some ""))) in
  if nonempty filePath then
    match read_file env filePath with
    | Some contents =>
        foldl add_token tokens
              (List.filter (fun l => nonempty l && negb (Text.startsWith "#" l))
                           (map Text.trim (Text.split_lines contents)))
    | None => tokens
    end
  else tokens.

(** [getLocalAuthToken()]: the first token of the set. *)
Definition getLocalAuthToken (tokens : list string) : option string := head tokens.

(** [req.headers['authorization']]. *)
Inductive header : Type :=
| HeaderAbsent
| HeaderText (s : string)
| HeaderList (values : list string).

(** What [authMiddleware] does with a request: answers 401, calls
    [next()] with the token it accepted, or throws a [TypeError]. *)
Inductive verdict : Type :=
| Rejected
| Passed (token : string)
| TypeFault.

Definition authMiddleware (tokens : list string) (h : header) : verdict :=
  let parts :=
    match h with
    | HeaderAbsent => Some ""
    | HeaderText s => Some s
    | HeaderList values => head values
    end in
  match parts with
  | None => TypeFault
  | Some parts =>
      let value :=
        if Text.startsWith "bearer " (Text.toLowerCase parts)
        then Some (Text.slice_from 7 parts)
        else if Text.startsWith "Bearer " parts
        then Some (Text.slice_from 7 parts)
        else None in
      let token := Text.trim <$> value in
      match token with
      | Some t =>
          if negb (nonempty t) || negb (bool_decide (t ∈ tokens)) then Rejected
          else Passed t
      | None => Rejected
      end
  end.

(** ** The application ([createApp]) *)

Inductive request : Type :=
| GetHealth
| GetDocs
| PostDocs (body : option PartialDoc)
| GetDoc (id : string)
| DeleteDoc (id : string)
| PostReplicate (body : option ReplicateBody).

Inductive answer : Type :=
| Routed (r : Response)
| HealthOk
| DocIds (ids : list string)
| Unauthorized
| ServerError.

Definition answer_code (a : answer) : nat :=
  match a with
  | Routed r => code r
  | HealthOk => 200
  | DocIds _ => 200
  | Unauthorized => 401
  | ServerError => 500
  end.

(** The middleware chain of [createApp] on a request whose body parsed
    and whose route is known: [authMiddleware], then the route; a throw
    in the middleware ends in the error handler. *)
Definition createApp (tokens : list string) (authorization : header) (req : request)
  : M answer :=
  match authMiddleware tokens authorization with
  | Rejected => ret Unauthorized
  | TypeFault => ret ServerError
  | Passed _ =>
      match req with
      | GetHealth => ret HealthOk
      | GetDocs => let* r := docs_list in ret (DocIds (snd r))
      | PostDocs body => let* r := docs_post body in ret (Routed r)
      | GetDoc id => let* r := docs_get id in ret (Routed r)
      | DeleteDoc id => let* r := docs_delete id in ret (Routed r)
      | PostReplicate body => let* r := replicate_post body in ret (Routed r)
      end
  end.

(** ** Vocabulary of the statements *)

(** The nonce [uuidv4().slice(0, 8)] that the next draw of [w] yields. *)
Definition nonce (w : World) : string :=
  JS.slice0 8 (Uuid.format (entropy w (drawn w))).

(** The decimal text of a natural number. *)
Definition decimal (n : N) : string := NilEmpty.string_of_uint (N.to_uint n).

(** The document the engine reads under a key: [load] without the effects. *)
Definition stored_doc (w : World) (id : string) : option Doc :=
  kv w !! id ≫= parseJSON.

(** The generation of a revision token: the decimal number before its
    first dash. *)
Definition generation_of (r : string) : option N :=
  match JS.indexOf "-" r with
  | Some d => N.of_uint <$> NilEmpty.uint_of_string (JS.slice0 d r)
  | None => None
  end.

Fixpoint all (p : ascii -> bool) (s : string) : bool :=
  match s with
  | EmptyString => true
  | String a rest => p a && all p rest
  end.

Definition is_hex_any (c : ascii) : bool := JS.mem c "0123456789abcdefABCDEF".

(** A token of the form [<n>-<h>]: [n] a positive integer in decimal
    without leading zeros, [h] eight hexadecimal characters. *)
Definition rev_well_formed (r : string) : bool :=
  match JS.indexOf "-" r with
  | Some d =>
      let g := JS.slice0 d r in
      let h := substring (S d) (String.length r - S d) r in
      match NilEmpty.uint_of_string g with
      | Some u =>
          (0 <? N.of_uint u)%N && String.eqb g (decimal (N.of_uint u))
          && (String.length h =? 8)%nat && all is_hex_any h
      | None => false
      end
  | None => false
  end.

(** Every value in the store is a document that carries its own key. *)
Definition store_invariant (m : gmap string stored) : Prop :=
  ∀ k v, m !! k = Some v → ∃ d, v = Json d ∧ _id d = k.

(** A computation that leaves every key but [id] as it was. *)
Definition only_touches {A} (id : string) (m : M A) : Prop :=
  ∀ w k, k ≠ id → kv (snd (m w)) !! k = kv w !! k.

(** A computation that leaves the whole store as it was. *)
Definition reads_only {A} (m : M A) : Prop :=
  ∀ w, kv (snd (m w)) = kv w.

(** A node without peers and with an empty store. *)
Definition lone_node : World :=
  {| kv := ∅; entropy := fun k => (Z.of_nat k * 2 ^ 100 + 3735928559 * 2 ^ 96)%Z;
     drawn := 0; peers := []; network := fun _ _ => None |}.

(** A node whose single peer answers every push with 409. *)
Definition contested_node : World :=
  {| kv := ∅; entropy := entropy lone_node; drawn := 0;
     peers := ["http://peer:3000/"]; network := fun _ _ => Some 409%nat |}.

(** The check made by [put] and [tx.put] before anything is written. *)
Definition cas_admits (existing : option Doc) (input : PartialDoc) : bool :=
  match existing with
  | Some ex => JS.truthy (p_rev input) && negb (JS.strict_ne (p_rev input) (_rev ex))
  | None => negb (JS.truthy (p_rev input))
  end.

(** The error [put] throws when that check fails. *)
Definition cas_error (existing : option Doc) : error :=
  match existing with
  | Some _ => conflict_mismatch
  | None => conflict_missing
  end.

(** The key [input._id || uuidv4()] that a write with the given [_id]
    works on, and the world once that key has been chosen. *)
Definition key_of (id : option string) (w : World) : string :=
  if JS.truthy id then default "" id else Uuid.format (entropy w (drawn w)).

Definition after_key (id : option string) (w : World) : World :=
  if JS.truthy id then w else drew w.

(** A node holding text under ["k"] that is not JSON. *)
Definition corrupt_node : World :=
  with_kv lone_node {[ "k" := Corrupt "{oops" ]}.

(** The same node once it holds a document under ["x"]. *)
Definition contested_with_doc : World :=
  with_kv contested_node
    (<["x" := Json {| _id := "x"; _rev := Some "1-0badcafe"; attrs := ∅ |}]> ∅).







(** A computation that keeps the store invariant. *)
Definition keeps_invariant {A} (m : M A) : Prop :=
  ∀ w, store_invariant (kv w) → store_invariant (kv (snd (m w))).

(** ** Peers ([src/config/index.ts]) *)

(** [string | string[] | undefined]. *)
Inductive raw_peers : Type :=
| RawAbsent
| RawText (s : string)
| RawList (items : list string).

Definition parsePeers (raw : raw_peers) : list string :=
  match raw with
  | RawAbsent => []
  | RawText s =>
      if nonempty s then List.filter nonempty (map Text.trim (Text.split "," s)) else []
  | RawList items => List.filter nonempty (map Text.trim items)
  end.

(** The environment [loadConfig] reads; [read_config] is [loadFromFile]
    on the configured path: [None] where it returns [undefined], else
    the [peers] member of the parsed file. *)
Record ConfigEnv : Type := mkConfigEnv {
  POTDB_PEERS : option string;
  POTDB_CONFIG_FILE : option string;
  read_config : string -> option raw_peers;
  HOSTNAME : option string;
  POTDB_SCHEME : option string;
  POTDB_PEER_SCHEME : option string;
  PORT : option string;
  POTDB_PORT : option string;
  POTDB_K8S_HEADLESS_SERVICE : option string;
}.

(** [cfg.peers] is truthy. *)
Definition raw_truthy (raw : raw_peers) : bool :=
  match raw with
  | RawAbsent => false
  | RawText s => nonempty s
  | RawList _ => true
  end.

(** [hostname.match] with the pattern of the source, any text up to the
    last dash and then digits to the end: the two groups. *)
Definition match_ordinal (hostname : string) : option (string * string) :=
  match Text.split_last "-" hostname with
  | Some (baseName, digits) =>
      if nonempty digits && all Text.is_digit digits
         && negb (JS.any Text.is_line_break baseName)
      then Some (baseName, digits) else None
  | None => None
  end.

(** The autodiscovery block of [loadConfig]: the peers found from the
    pod's host name; [None] where a number leaves the tracked part of
    the doubles. *)
Definition autodiscover (env : ConfigEnv) : option (list string) :=
  let hostname := Text.trim (default "" (or_else (HOSTNAME env) (Some ""))) in
  match match_ordinal hostname with
  | Some (baseName, digits) =>
      match JS.Number digits with
      | JS.Exact myIndex =>
          if (0 <? myIndex)%N then
            let scheme :=
              Text.drop_scheme_suffix
                (default "" (or_else (POTDB_SCHEME env)
                                     (or_else (POTDB_PEER_SCHEME env) (Some "http")))) in
            let port :=
              match or_else (PORT env) (POTDB_PORT env) with
              | Some p => if nonempty p then JS.Number p else JS.Exact 3000
              | None => JS.Exact 3000
              end in
            let headlessSvc :=
              Text.trim (default "" (or_else (POTDB_K8S_HEADLESS_SERVICE env) (Some ""))) in
            let buildHost (i : nat) :=
              if nonempty headlessSvc
              then baseName ++ "-" ++ decimal (N.of_nat i) ++ "." ++ headlessSvc
              else baseName ++ "-" ++ decimal (N.of_nat i) in
            match JS.toString port with
            | Some portText =>
                Some (map (fun i => scheme ++ "://" ++ buildHost i ++ ":" ++ portText)
                          (seq 0 (N.to_nat myIndex)))
            | None => None
            end
          else Some []
      | JS.NaN => Some []
      | JS.Untracked => None
      end
  | None => Some []
  end.

Definition loadConfig (env : ConfigEnv) : option (list string) :=
  let peers := parsePeers (match POTDB_PEERS env with
                           | Some s => RawText s
                           | None => RawAbsent
                           end) in
  let cfgPath := Text.trim (default "" (or_else (POTDB_CONFIG_FILE env) (Some ""))) in
  let peers :=
    if nonempty cfgPath then
      match read_config env cfgPath with
      | Some raw => if raw_truthy raw then parsePeers raw else peers
      | None => peers
      end
    else peers in
  match peers with
  | [] => autodiscover env
  | _ => Some peers
  end.

(** The first character, if any, is not white space. *)
Definition no_lead (s : string) : Prop :=
  match s with
  | EmptyString => True
  | String c _ => Text.is_space c = false
  end.

(** The header value that [authMiddleware] looks at. *)
Definition first_value (h : header) : option string :=
  match h with
  | HeaderAbsent => Some ""
  | HeaderText s => Some s
  | HeaderList values => head values
  end.

(** A string that is not empty and has no white space around it. *)
Definition clean (t : string) : Prop := t ≠ "" ∧ Text.trim t = t.

(** ** Facts about the primitives *)

Section Primitives.

Lemma truthy_Some (s : string) : JS.truthy (Some s) = true ↔ s ≠ "".
Proof.
  unfold JS.truthy. rewrite negb_true_iff. apply String.eqb_neq.
Qed.

Lemma truthy_false (v : option string) :
  JS.truthy v = false ↔ v = None ∨ v = Some "".
Proof.
  destruct v as [s|]; simpl.
  - rewrite negb_false_iff, String.eqb_eq. split.
    + intros ->. by right.
    + intros [?| [= ->]]; done.
  - split; [by left | done].
Qed.

Lemma strict_ne_false (a b : option string) : JS.strict_ne a b = false ↔ a = b.
Proof.
  destruct a as [x|], b as [y|]; simpl; try (split; done).
  rewrite negb_false_iff, String.eqb_eq. split; [by intros -> | by intros [= ->]].
Qed.

Lemma strict_ne_true (a b : option string) : JS.strict_ne a b = true ↔ a ≠ b.
Proof.
  rewrite <- not_false_iff_true, strict_ne_false. done.
Qed.

Lemma strict_ne_refl (a : option string) : JS.strict_ne a a = false.
Proof. by apply strict_ne_false. Qed.

Lemma or_undefined_truthy (v : option string) :
  JS.truthy v = true → JS.or_undefined v = v.
Proof. unfold JS.or_undefined. by intros ->. Qed.

Lemma slice0_app (a b : string) : JS.slice0 (String.length a) (a ++ b) = a.
Proof.
  unfold JS.slice0. induction a as [|c a IH]; simpl.
  - by destruct b.
  - by rewrite IH.
Qed.

Lemma length_append (a b : string) :
  String.length (a ++ b) = (String.length a + String.length b)%nat.
Proof. induction a as [|c a IH]; simpl; [done | by rewrite IH]. Qed.

Lemma indexOf_app (c : ascii) (a b : string) :
  JS.mem c a = false → JS.indexOf c (a ++ String c b) = Some (String.length a).
Proof.
  induction a as [|x a IH]; simpl.
  - by rewrite Ascii.eqb_refl.
  - intros [Hx Ha]%orb_false_iff. rewrite Hx, (IH Ha). done.
Qed.

Lemma digits_no_dash (d : uint) : JS.mem "-" (NilEmpty.string_of_uint d) = false.
Proof. induction d; simpl; auto. Qed.

Lemma hex_digit_is_hex (z : Z) : Uuid.is_hex (Uuid.hex_digit z) = true.
Proof.
  unfold Uuid.hex_digit.
  assert (0 ≤ Z.land z 15 < 16)%Z as Hr.
  { change 15%Z with (Z.ones 4). rewrite Z.land_ones by lia.
    apply Z.mod_pos_bound. lia. }
  assert (Z.to_nat (Z.land z 15) < 16)%nat as Hn by lia.
  revert Hn. generalize (Z.to_nat (Z.land z 15)). intros n Hn.
  do 16 (destruct n as [|n]; [reflexivity|]). lia.
Qed.

Lemma hex_field_length (w : nat) (z : Z) : String.length (Uuid.hex_field w z) = w.
Proof. induction w as [|w IH]; simpl; [done | by rewrite IH]. Qed.


End Primitives.

Section Revisions.

Lemma nonce_field (w : World) :
  nonce w = Uuid.hex_field 8 (Z.shiftr (entropy w (drawn w)) 96).
Proof.
  unfold nonce, Uuid.format.
  rewrite <- (hex_field_length 8 (Z.shiftr (entropy w (drawn w)) 96)) at 1.
  apply slice0_app.
Qed.

Lemma nonce_length (w : World) : String.length (nonce w) = 8%nat.
Proof. rewrite nonce_field. apply hex_field_length. Qed.


Lemma format_length (r : Z) : String.length (Uuid.format r) = 36%nat.
Proof.
  unfold Uuid.format. rewrite !length_append. cbn [String.length].
  rewrite !hex_field_length. reflexivity.
Qed.

Lemma format_nonempty (r : Z) : Uuid.format r ≠ "".
Proof. intros H. pose proof (format_length r) as E. by rewrite H in E. Qed.

Lemma Number_decimal (n : N) : (n ≤ JS.max_exact)%N → JS.Number (decimal n) = JS.Exact n.
Proof.
  intros Hn. unfold JS.Number, decimal.
  rewrite NilEmpty.usu, DecimalN.Unsigned.of_to.
  by apply N.leb_le in Hn as ->.
Qed.

Lemma decimal_nonempty (n : N) : decimal n ≠ "".
Proof.
  intros E. pose proof (NilEmpty.usu (N.to_uint n)) as Hu.
  fold (decimal n) in Hu. rewrite E in Hu. simpl in Hu.
  injection Hu as Hu. pose proof (DecimalN.Unsigned.of_to n) as Ho.
  rewrite <- Hu in Ho. simpl in Ho. subst n. discriminate E.
Qed.

Lemma nextRev_absent (w : World) :
  nextRev None w = (Ok ("1-" ++ nonce w), drew w).
Proof. reflexivity. Qed.

Lemma nextRev_empty (w : World) :
  nextRev (Some "") w = (Ok ("1-" ++ nonce w), drew w).
Proof. reflexivity. Qed.

Lemma nextRev_some (prev : string) (w : World) :
  prev ≠ "" →
  nextRev (Some prev) w =
    match next_generation prev with
    | Some next => (Ok (next ++ "-" ++ nonce w), drew w)
    | None => (OutOfModel, w)
    end.
Proof.
  intros Hp%truthy_Some. unfold nextRev. rewrite Hp. simpl.
  by destruct (next_generation prev).
Qed.

(** [nextRev] never throws and never touches the store. *)
Lemma nextRev_cases (prev : option string) (w : World) :
  (∃ g, nextRev prev w = (Ok (g ++ "-" ++ nonce w), drew w)) ∨
  nextRev prev w = (OutOfModel, w).
Proof.
  destruct prev as [p|]; [|left; by exists "1"].
  destruct (decide (p = "")) as [->|Hp]; [left; by exists "1"|].
  rewrite nextRev_some by done.
  destruct (next_generation p) as [g|]; [left; by exists g | by right].
Qed.

End Revisions.

(** ** The revision allocator *)

Section Allocator.













End Allocator.

(** ** The engine, one call at a time *)

Section Engine.

Lemma load_run (id : string) (w : World) : load id w = (Ok (stored_doc w id), w).
Proof. reflexivity. Qed.

Lemma casReplace_run (id : string) (doc : Doc) (expected : option string) (w : World) :
  casReplace id doc expected w =
    if JS.strict_ne (JS.or_undefined (stored_doc w id ≫= _rev)) (JS.or_undefined expected)
    then (Throw conflict_mismatch, w)
    else (Ok tt, with_kv w (<[id := Json (force_id doc id)]> (kv w))).
Proof.
  unfold casReplace, bind. rewrite load_run.
  by destruct (JS.strict_ne _ _).
Qed.

Lemma casDelete_run (id : string) (prevRev : option string) (w : World) :
  casDelete id prevRev w =
    if match prevRev with
       | Some _ => JS.strict_ne (JS.or_undefined (stored_doc w id ≫= _rev))
                                (JS.or_undefined prevRev)
       | None => false
       end
    then (Throw conflict_mismatch, w)
    else match stored_doc w id with
         | Some _ => (Ok tt, with_kv w (delete id (kv w)))
         | None => (Ok tt, w)
         end.
Proof.
  unfold casDelete, bind. rewrite load_run.
  destruct prevRev as [p|]; [destruct (JS.strict_ne _ _)|]; simpl;
    by destruct (stored_doc w id).
Qed.

Lemma casPut_run (id : string) (input : PartialDoc) (w : World) :
  casPut id input w =
    let existing := stored_doc w id in
    if cas_admits existing input then
      match nextRev (existing ≫= _rev) w with
      | (Ok r, w1) =>
          let next := set_rev (spread existing input id) r in
          (Ok next, with_kv w1 (<[id := Json next]> (kv w1)))
      | (Throw e, w1) => (Throw e, w1)
      | (OutOfModel, w1) => (OutOfModel, w1)
      end
    else (Throw (cas_error existing), w).
Proof.
  unfold casPut, bind. rewrite load_run. simpl.
  destruct (stored_doc w id) as [ex|]; simpl.
  - destruct (JS.truthy (p_rev input)); simpl; [|done].
    destruct (JS.strict_ne (p_rev input) (_rev ex)); simpl; [done|].
    by destruct (nextRev (_rev ex) w) as [[r|e|] w1].
  - destruct (JS.truthy (p_rev input)); simpl; [done|].
    by destruct (nextRev None w) as [[r|e|] w1].
Qed.

Lemma applyRemotePut_run (doc : Doc) (prevRev : option string) (w : World) :
  applyRemotePut doc prevRev w =
    if negb (JS.truthy (_rev doc)) then (Throw invalid_missing_rev, w)
    else if JS.strict_ne (JS.or_undefined (stored_doc w (_id doc) ≫= _rev))
                         (JS.or_undefined prevRev)
    then (Throw conflict_mismatch, w)
    else (Ok (force_id doc (_id doc)),
          with_kv w (<[_id doc := Json (force_id doc (_id doc))]> (kv w))).
Proof.
  unfold applyRemotePut. destruct (negb (JS.truthy (_rev doc))); [done|].
  unfold bind. rewrite load_run. by destruct (JS.strict_ne _ _).
Qed.

Lemma force_id_same (doc : Doc) : force_id doc (_id doc) = doc.
Proof. by destruct doc. Qed.

Lemma stored_doc_insert (w : World) (m : gmap string stored) (id : string) (d : Doc) :
  stored_doc (with_kv w (<[id := Json d]> m)) id = Some d.
Proof. unfold stored_doc. simpl. by rewrite lookup_insert_eq. Qed.

End Engine.

(** ** Remote apply *)

Section RemoteApply.

(** C3, as the code has it: [applyRemotePut] rejects a document whose
    [_rev] is absent or empty as an invalid payload; otherwise it succeeds
    exactly when the stored [_rev] and [prevRev] agree once an empty
    string is read as absent, and then stores the document verbatim under
    its [_id] without drawing a new revision; on a mismatch it throws
    CONFLICT and the store is unchanged. *)
Theorem applyRemotePut_spec (doc : Doc) (prevRev : option string) (w : World) :
  (JS.truthy (_rev doc) = false →
     applyRemotePut doc prevRev w = (Throw invalid_missing_rev, w)) ∧
  (JS.truthy (_rev doc) = true →
     let current := stored_doc w (_id doc) ≫= _rev in
     (JS.or_undefined current = JS.or_undefined prevRev →
        applyRemotePut doc prevRev w =
          (Ok doc, with_kv w (<[_id doc := Json doc]> (kv w)))) ∧
     (JS.or_undefined current ≠ JS.or_undefined prevRev →
        applyRemotePut doc prevRev w = (Throw conflict_mismatch, w))).
Proof.
  rewrite applyRemotePut_run, force_id_same. split.
  - by intros ->.
  - intros ->. simpl. split.
    + intros ->. by rewrite strict_ne_refl.
    + by intros ->%strict_ne_true.
Qed.

Lemma applyRemotePut_spec_witness :
  applyRemotePut {| _id := "x"; _rev := Some "1-0badcafe"; attrs := ∅ |} None lone_node =
    (Ok {| _id := "x"; _rev := Some "1-0badcafe"; attrs := ∅ |},
     with_kv lone_node
       (<["x" := Json {| _id := "x"; _rev := Some "1-0badcafe"; attrs := ∅ |}]> (kv lone_node))).
Proof.
  apply (proj2 (applyRemotePut_spec
                  {| _id := "x"; _rev := Some "1-0badcafe"; attrs := ∅ |} None lone_node));
    reflexivity.
Defined.

(** C3 as stated fails: with nothing stored under ["x"] the stored [_rev]
    is absent, the [prevRev] passed is the empty string, and the call
    succeeds instead of returning CONFLICT. *)
Lemma applyRemotePut_empty_prevRev :
  let doc := {| _id := "x"; _rev := Some "1-0badcafe"; attrs := ∅ |} in
  stored_doc lone_node "x" ≫= _rev = None ∧
  Some "" ≠ (None : option string) ∧
  fst (applyRemotePut doc (Some "") lone_node) = Ok doc.
Proof. repeat split; done. Qed.

(** C8, as the code has it: when [applyRemotePut(doc, prevRev)] succeeds
    and [prevRev] differs from [doc._rev], applying it again returns
    CONFLICT and changes nothing; when they are equal the second call
    succeeds again. *)
Theorem applyRemotePut_twice (doc d : Doc) (prevRev : option string) (w w1 : World) :
  applyRemotePut doc prevRev w = (Ok d, w1) →
  (JS.or_undefined prevRev ≠ _rev doc →
     applyRemotePut doc prevRev w1 = (Throw conflict_mismatch, w1)) ∧
  (JS.or_undefined prevRev = _rev doc →
     applyRemotePut doc prevRev w1 = (Ok d, w1)).
Proof.
  rewrite applyRemotePut_run, force_id_same.
  destruct (JS.truthy (_rev doc)) eqn:Hrev; simpl; [|done].
  destruct (JS.strict_ne _ _) eqn:Hcas; [done|].
  intros [= <- <-].
  rewrite applyRemotePut_run, Hrev, force_id_same, stored_doc_insert. simpl.
  rewrite (or_undefined_truthy _ Hrev). split.
  - intros Hne. apply not_eq_sym, strict_ne_true in Hne. by rewrite Hne.
  - intros Heq. rewrite Heq, strict_ne_refl. f_equal.
    destruct w. unfold with_kv. simpl. f_equal. apply insert_insert_eq.
Qed.

Lemma applyRemotePut_twice_witness :
  let doc := {| _id := "x"; _rev := Some "1-0badcafe"; attrs := ∅ |} in
  let w1 := with_kv lone_node (<["x" := Json doc]> (kv lone_node)) in
  applyRemotePut doc None w1 = (Throw conflict_mismatch, w1).
Proof.
  intros doc w1.
  apply (proj1 (applyRemotePut_twice doc doc None lone_node w1 eq_refl)).
  discriminate.
Defined.

(** C8 as stated fails: a change record whose [prevRev] equals its [rev]
    is applied twice in succession and both calls succeed. *)
Lemma applyRemotePut_twice_both_succeed :
  let doc := {| _id := "x"; _rev := Some "1-0badcafe"; attrs := ∅ |} in
  let w := with_kv lone_node (<["x" := Json doc]> (kv lone_node)) in
  let first := applyRemotePut doc (Some "1-0badcafe") w in
  fst first = Ok doc ∧
  fst (applyRemotePut doc (Some "1-0badcafe") (snd first)) = Ok doc.
Proof. split; vm_compute; reflexivity. Qed.

End RemoteApply.

(** ** Local writes *)

Section LocalPut.

Lemma id_or_uuid_run (id : option string) (w : World) :
  id_or_uuid id w = (Ok (key_of id w), after_key id w).
Proof.
  unfold id_or_uuid, key_of, after_key.
  destruct id as [s|]; [|done]. by destruct (JS.truthy (Some s)).
Qed.

Lemma after_key_kv (id : option string) (w : World) : kv (after_key id w) = kv w.
Proof. unfold after_key. by destruct (JS.truthy id). Qed.

Lemma stored_doc_after_key (id : option string) (w : World) (k : string) :
  stored_doc (after_key id w) k = stored_doc w k.
Proof. unfold stored_doc. by rewrite after_key_kv. Qed.

Lemma put_run (input : PartialDoc) (w : World) :
  put input w = casPut (key_of (p_id input) w) input (after_key (p_id input) w).
Proof. unfold put, bind. by rewrite id_or_uuid_run. Qed.

Lemma cas_admits_iff (existing : option Doc) (input : PartialDoc) :
  cas_admits existing input = true ↔
  match existing with
  | Some ex => ∃ r, r ≠ "" ∧ p_rev input = Some r ∧ _rev ex = Some r
  | None => p_rev input = None ∨ p_rev input = Some ""
  end.
Proof.
  unfold cas_admits. destruct existing as [ex|].
  - rewrite andb_true_iff, negb_true_iff, strict_ne_false. split.
    + intros [Ht Heq]. destruct (p_rev input) as [r|] eqn:Hr; [|done].
      exists r. apply truthy_Some in Ht. by rewrite <- Heq.
    + intros (r & Hne & -> & ->). split; [by apply truthy_Some | done].
  - rewrite negb_true_iff. apply truthy_false.
Qed.

Lemma cas_error_409 (existing : option Doc) : status (cas_error existing) = Some 409%nat.
Proof. by destruct existing. Qed.

(** C2, as the code has it: [put] throws CONFLICT, leaving the store
    unchanged, unless a document exists and [input._rev] is a non-empty
    string equal to its [_rev], or no document exists and [input._rev] is
    absent or empty; otherwise it stores and returns the key-wise merge of
    the existing document and the input (input first) with [_id] set to
    the key and [_rev] to [nextRev(existing._rev)]. *)
Theorem put_cas (input : PartialDoc) (w : World) :
  let id := key_of (p_id input) w in
  let w0 := after_key (p_id input) w in
  let existing := stored_doc w id in
  let admitted :=
    match existing with
    | Some ex => ∃ r, r ≠ "" ∧ p_rev input = Some r ∧ _rev ex = Some r
    | None => p_rev input = None ∨ p_rev input = Some ""
    end in
  (¬ admitted →
     ∃ e, status e = Some 409%nat ∧ put input w = (Throw e, w0) ∧ kv w0 = kv w) ∧
  (admitted →
     put input w = (OutOfModel, w0) ∨
     ∃ r, nextRev (existing ≫= _rev) w0 = (Ok r, drew w0) ∧
       let next := {| _id := id; _rev := Some r;
                      attrs := p_attrs input ∪ from_option attrs ∅ existing |} in
       put input w = (Ok next, with_kv (drew w0) (<[id := Json next]> (kv w))) ∧
       ∀ k, attrs next !! k =
            match p_attrs input !! k with
            | Some v => Some v
            | None => existing ≫= (λ ex, attrs ex !! k)
            end).
Proof.
  cbv zeta. rewrite put_run, casPut_run, stored_doc_after_key. cbv zeta.
  set (id := key_of (p_id input) w). set (w0 := after_key (p_id input) w).
  set (existing := stored_doc w id).
  set (admitted := match existing with Some _ => _ | None => _ end).
  assert (cas_admits existing input = true ↔ admitted) as Hiff by apply cas_admits_iff.
  split.
  - intros Hno. destruct (cas_admits existing input) eqn:Hc.
    + destruct Hno. by apply Hiff.
    + exists (cas_error existing).
      split; [apply cas_error_409|]. split; [done | apply after_key_kv].
  - intros Hyes. apply Hiff in Hyes. rewrite Hyes.
    destruct (nextRev_cases (existing ≫= _rev) w0) as [[g Hg] | Hout].
    + right. exists (g ++ "-" ++ nonce w0). rewrite Hg. split; [done|]. split.
      * unfold set_rev, spread. simpl. do 3 f_equal. apply after_key_kv.
      * intros k. simpl. rewrite lookup_union.
        destruct (p_attrs input !! k) as [v|], existing as [ex|]; simpl;
          try done; try (by destruct (attrs ex !! k)).
    + left. by rewrite Hout.
Qed.

Lemma put_cas_witness :
  let input := {| p_id := Some "a"; p_rev := Some "7-0badcafe"; p_attrs := ∅ |} in
  ∃ e, status e = Some 409%nat ∧ put input lone_node = (Throw e, lone_node) ∧
       kv lone_node = kv lone_node.
Proof.
  intros input. apply (proj1 (put_cas input lone_node)).
  simpl. intros [H | H]; discriminate H.
Defined.

(** C2 as stated fails: no document exists under ["a"], the input carries
    a [_rev] (the empty string), and [put] creates the document instead of
    throwing CONFLICT. *)
Lemma put_empty_rev_creates :
  let input := {| p_id := Some "a"; p_rev := Some ""; p_attrs := ∅ |} in
  stored_doc lone_node "a" = None ∧
  p_rev input ≠ None ∧
  fst (put input lone_node) =
    Ok {| _id := "a"; _rev := Some "1-deadbeef"; attrs := ∅ |} ∧
  kv (snd (put input lone_node)) !! "a" =
    Some (Json {| _id := "a"; _rev := Some "1-deadbeef"; attrs := ∅ |}).
Proof. repeat split; try done; vm_compute; reflexivity. Qed.

(** C9, as the code has it: text that is not JSON reads as an absent
    document; [get] returns absent, a [put] whose [_rev] is absent or
    empty overwrites the text with a generation-1 document, and a [put]
    with a non-empty [_rev] throws CONFLICT. *)
Theorem corrupt_is_absent (id bytes : string) (input : PartialDoc) (w : World) :
  kv w !! id = Some (Corrupt bytes) → id ≠ "" → p_id input = Some id →
  get id w = (Ok None, w) ∧
  (p_rev input = None ∨ p_rev input = Some "" →
     let next := {| _id := id; _rev := Some ("1-" ++ nonce w); attrs := p_attrs input |} in
     put input w = (Ok next, with_kv (drew w) (<[id := Json next]> (kv w)))) ∧
  (JS.truthy (p_rev input) = true →
     ∃ e, status e = Some 409%nat ∧ put input w = (Throw e, w)).
Proof.
  intros Hkv Hid Hin.
  assert (stored_doc w id = None) as Hdoc by (unfold stored_doc; by rewrite Hkv).
  assert (key_of (p_id input) w = id ∧ after_key (p_id input) w = w) as [Hk Hw].
  { apply truthy_Some in Hid. unfold key_of, after_key. by rewrite Hin, Hid. }
  split; [|split].
  - unfold get. by rewrite load_run, Hdoc.
  - intros Hrev%truthy_false. rewrite put_run, Hk, Hw, casPut_run, Hdoc. simpl.
    rewrite Hrev. simpl. unfold set_rev, spread. simpl.
    by rewrite (right_id_L ∅ (∪)).
  - intros Hrev. exists conflict_missing. split; [done|].
    rewrite put_run, Hk, Hw, casPut_run, Hdoc. simpl. by rewrite Hrev.
Qed.

Lemma corrupt_is_absent_witness :
  get "k" corrupt_node = (Ok None, corrupt_node) ∧
  ∃ e, status e = Some 409%nat ∧
       put {| p_id := Some "k"; p_rev := Some "1-0badcafe"; p_attrs := ∅ |} corrupt_node =
         (Throw e, corrupt_node).
Proof.
  pose proof (corrupt_is_absent "k" "{oops"
                {| p_id := Some "k"; p_rev := Some "1-0badcafe"; p_attrs := ∅ |}
                corrupt_node eq_refl) as H.
  destruct H as (Hget & _ & Hput); [discriminate | reflexivity |].
  split; [exact Hget | apply Hput; reflexivity].
Defined.

(** C9 as stated fails: the value under ["k"] is not JSON, the [put]
    carries a [_rev] (the empty string), and it overwrites the value
    instead of throwing CONFLICT. *)
Lemma corrupt_put_empty_rev :
  let input := {| p_id := Some "k"; p_rev := Some ""; p_attrs := ∅ |} in
  kv corrupt_node !! "k" = Some (Corrupt "{oops") ∧
  p_rev input ≠ None ∧
  fst (put input corrupt_node) =
    Ok {| _id := "k"; _rev := Some "1-deadbeef"; attrs := ∅ |}.
Proof. repeat split; try done; vm_compute; reflexivity. Qed.

End LocalPut.

(** ** Revisions assigned by local writes *)

Section Generations.

Lemma substring_all (b : string) : substring 0 (String.length b) b = b.
Proof. induction b as [|c b IH]; simpl; [done | by rewrite IH]. Qed.

Lemma substring_tail (a b : string) (c : ascii) :
  substring (S (String.length a))
            (String.length (a ++ String c b) - S (String.length a))
            (a ++ String c b) = b.
Proof.
  induction a as [|x a IH]; simpl.
  - rewrite Nat.sub_0_r. apply substring_all.
  - apply IH.
Qed.

Lemma hex_digit_is_hex_any (z : Z) : is_hex_any (Uuid.hex_digit z) = true.
Proof.
  pose proof (hex_digit_is_hex z) as H. revert H.
  unfold Uuid.is_hex, is_hex_any. simpl.
  generalize (Uuid.hex_digit z). intros c H.
  repeat (apply orb_true_iff in H as [H | H]; [rewrite H, ?orb_true_r; done|]).
  done.
Qed.

Lemma hex_field_all_hex (w : nat) (z : Z) : all is_hex_any (Uuid.hex_field w z) = true.
Proof.
  induction w as [|w IH]; simpl; [done|]. by rewrite hex_digit_is_hex_any, IH.
Qed.

Lemma decimal_parse (n : N) : NilEmpty.uint_of_string (decimal n) = Some (N.to_uint n).
Proof. apply NilEmpty.usu. Qed.

Lemma decimal_dash (n : N) (h : string) :
  JS.indexOf "-" (decimal n ++ "-" ++ h) = Some (String.length (decimal n)).
Proof. apply indexOf_app, digits_no_dash. Qed.

Lemma generation_of_token (n : N) (h : string) :
  generation_of (decimal n ++ "-" ++ h) = Some n.
Proof.
  unfold generation_of. rewrite decimal_dash, slice0_app, decimal_parse. simpl.
  by rewrite DecimalN.Unsigned.of_to.
Qed.

Lemma token_well_formed (n : N) (w : World) :
  (0 < n)%N → rev_well_formed (decimal n ++ "-" ++ nonce w) = true.
Proof.
  intros Hn. unfold rev_well_formed.
  rewrite decimal_dash, slice0_app, decimal_parse, DecimalN.Unsigned.of_to.
  change (decimal n ++ "-" ++ nonce w) with (decimal n ++ String "-" (nonce w)).
  rewrite substring_tail, nonce_length, String.eqb_refl.
  apply N.ltb_lt in Hn as ->. rewrite nonce_field, hex_field_all_hex. done.
Qed.

Lemma next_generation_Some (prev g : string) :
  next_generation prev = Some g →
  ∃ m, g = decimal m ∧ (0 < m)%N ∧ (m ≤ JS.max_exact)%N.
Proof.
  unfold next_generation.
  assert (∀ k, JS.toString (JS.add1 (JS.or_zero (JS.Exact k))) = Some g →
               ∃ m, g = decimal m ∧ (0 < m)%N ∧ (m ≤ JS.max_exact)%N) as Hk.
  { intros k. simpl. destruct (k <? JS.max_exact)%N eqn:Hlt; [|done].
    intros [= <-]. apply N.ltb_lt in Hlt. exists (k + 1)%N. split; [done | lia]. }
  destruct (JS.indexOf "-" prev) as [[|d]|]; [apply Hk | | apply Hk].
  destruct (JS.Number _) as [|k|]; simpl; [apply (Hk 0%N) | apply Hk | done].
Qed.

Lemma next_generation_token (n : N) (h g : string) :
  next_generation (decimal n ++ "-" ++ h) = Some g →
  g = decimal (n + 1) ∧ (n < JS.max_exact)%N.
Proof.
  unfold next_generation. rewrite decimal_dash.
  destruct (String.length (decimal n)) as [|d] eqn:Hlen.
  { pose proof (decimal_nonempty n) as Hne. by destruct (decimal n). }
  rewrite <- Hlen, slice0_app. unfold JS.Number. rewrite decimal_parse.
  rewrite DecimalN.Unsigned.of_to. cbv zeta.
  destruct (n <=? JS.max_exact)%N; simpl; [|done].
  destruct (n <? JS.max_exact)%N eqn:Hlt; [|done].
  intros [= <-]. by apply N.ltb_lt in Hlt.
Qed.

Lemma nextRev_Ok (prev : option string) (w w' : World) (r : string) :
  nextRev prev w = (Ok r, w') →
  w' = drew w ∧ ∃ m, r = decimal m ++ "-" ++ nonce w ∧ (0 < m)%N ∧ (m ≤ JS.max_exact)%N.
Proof.
  destruct prev as [p|]; [destruct (decide (p = "")) as [->|Hp]|].
  - rewrite nextRev_empty. intros [= <- <-]. split; [done|]. by exists 1%N.
  - rewrite nextRev_some by done.
    destruct (next_generation p) as [g|] eqn:Hg; [|done].
    intros [= <- <-]. split; [done|].
    destruct (next_generation_Some _ _ Hg) as (m & -> & ?). by exists m.
  - rewrite nextRev_absent. intros [= <- <-]. split; [done|]. by exists 1%N.
Qed.

Lemma casPut_Ok (id : string) (input : PartialDoc) (w w' : World) (d : Doc) :
  casPut id input w = (Ok d, w') →
  ∃ r, nextRev (stored_doc w id ≫= _rev) w = (Ok r, drew w) ∧
       d = set_rev (spread (stored_doc w id) input id) r ∧
       w' = with_kv (drew w) (<[id := Json d]> (kv w)).
Proof.
  rewrite casPut_run. cbv zeta. destruct (cas_admits _ _); [|done].
  destruct (nextRev _ w) as [[r|e|] w1] eqn:Hn; [|done..].
  intros [= <- <-]. destruct (nextRev_Ok _ _ _ _ Hn) as [-> _]. by exists r.
Qed.

Lemma casPut_stored (id : string) (input : PartialDoc) (w w' : World) (d : Doc) :
  casPut id input w = (Ok d, w') →
  kv w' !! id = Some (Json d) ∧ _id d = id ∧
  ∃ r, _rev d = Some r ∧ rev_well_formed r = true.
Proof.
  intros (r & Hn & -> & ->)%casPut_Ok.
  split; [apply lookup_insert_eq|]. split; [done|].
  exists r. split; [done|].
  destruct (nextRev_Ok _ _ _ _ Hn) as (_ & m & -> & Hm & _).
  by apply token_well_formed.
Qed.

Lemma put_stored (input : PartialDoc) (w w' : World) (d : Doc) :
  put input w = (Ok d, w') →
  kv w' !! _id d = Some (Json d) ∧ _id d = key_of (p_id input) w ∧
  ∃ r, _rev d = Some r ∧ rev_well_formed r = true.
Proof.
  rewrite put_run. intros H.
  destruct (casPut_stored _ _ _ _ _ H) as (Hkv & Hid & Hrev). by rewrite Hid.
Qed.







End Generations.

Section Monotonic.

Lemma token_nonempty (n : N) (h : string) : decimal n ++ "-" ++ h ≠ "".
Proof. pose proof (decimal_nonempty n). by destruct (decimal n). Qed.

(** C4, as the code has it: when a local write to [_id] ([put] and
    [tx.put] share the body [casPut]) is followed by the next local write
    to that [_id] with the document it stored still in place, whatever
    happened to other keys in between, the second generation is the first
    plus one. *)
Theorem generation_increases
    (id : string) (input1 input2 : PartialDoc) (w w1 v w2 : World) (d1 d2 : Doc) :
  casPut id input1 w = (Ok d1, w1) →
  kv v !! id = kv w1 !! id →
  casPut id input2 v = (Ok d2, w2) →
  ∃ n, _rev d1 ≫= generation_of = Some n ∧
       _rev d2 ≫= generation_of = Some (n + 1)%N ∧
       (n < JS.max_exact)%N.
Proof.
  intros (r1 & Hn1 & -> & ->)%casPut_Ok Hsame (r2 & Hn2 & -> & ->)%casPut_Ok.
  destruct (nextRev_Ok _ _ _ _ Hn1) as (_ & m & -> & _ & _).
  assert (stored_doc v id ≫= _rev = Some (decimal m ++ "-" ++ nonce w)) as Hcur.
  { unfold stored_doc. rewrite Hsame. simpl. by rewrite lookup_insert_eq. }
  rewrite Hcur, nextRev_some in Hn2 by apply token_nonempty.
  destruct (next_generation _) as [g|] eqn:Hg; [|done].
  apply next_generation_token in Hg as [-> Hlt]. injection Hn2 as <-.
  exists m. simpl. by rewrite !generation_of_token.
Qed.

Lemma generation_increases_witness :
  ∃ n, _rev {| _id := "x"; _rev := Some "1-deadbeef"; attrs := ∅ |} ≫= generation_of = Some n ∧
       _rev {| _id := "x"; _rev := Some "2-deadbeff"; attrs := ∅ |} ≫= generation_of
         = Some (n + 1)%N ∧
       (n < JS.max_exact)%N.
Proof.
  pose (create := {| p_id := Some "x"; p_rev := None; p_attrs := ∅ |}).
  pose (update := {| p_id := Some "x"; p_rev := Some "1-deadbeef"; p_attrs := ∅ |}).
  pose (w1 := snd (casPut "x" create lone_node)).
  apply (generation_increases "x" create update lone_node w1 w1
           (snd (casPut "x" update w1))); vm_compute; reflexivity.
Defined.

(** C4 as stated fails: three successful local writes to ["x"] with a
    delete between the second and the third are assigned the generations
    1, 2 and 1. *)
Lemma generation_restarts_after_delete :
  let create := {| p_id := Some "x"; p_rev := None; p_attrs := ∅ |} in
  let update := {| p_id := Some "x"; p_rev := Some "1-deadbeef"; p_attrs := ∅ |} in
  let first := put create lone_node in
  let second := put update (snd first) in
  let removed := del "x" (snd second) in
  let third := put create (snd removed) in
  fst first = Ok {| _id := "x"; _rev := Some "1-deadbeef"; attrs := ∅ |} ∧
  fst second = Ok {| _id := "x"; _rev := Some "2-deadbeff"; attrs := ∅ |} ∧
  fst removed = Ok tt ∧
  fst third = Ok {| _id := "x"; _rev := Some "1-deadbf0f"; attrs := ∅ |} ∧
  generation_of "2-deadbeff" = Some 2%N ∧
  generation_of "1-deadbf0f" = Some 1%N.
Proof. repeat split; vm_compute; reflexivity. Qed.

End Monotonic.

(** ** Which keys a computation can change *)

Section Frames.

Lemma only_touches_ret {A} (id : string) (a : A) : only_touches id (ret a).
Proof. by intros w k _. Qed.

Lemma only_touches_throw {A} (id : string) (e : error) : only_touches id (@throw A e).
Proof. by intros w k _. Qed.

Lemma only_touches_bind {A B} (id : string) (m : M A) (f : A → M B) :
  only_touches id m → (∀ a, only_touches id (f a)) → only_touches id (bind m f).
Proof.
  intros Hm Hf w k Hk. specialize (Hm w k Hk). unfold bind.
  destruct (m w) as [[a|e|] w1]; simpl in *; [|done..].
  by rewrite (Hf a w1 k Hk).
Qed.

Lemma only_touches_catch {A} (id : string) (m : M A) (h : error → M A) :
  only_touches id m → (∀ e, only_touches id (h e)) → only_touches id (try_catch m h).
Proof.
  intros Hm Hh w k Hk. specialize (Hm w k Hk). unfold try_catch.
  destruct (m w) as [[a|e|] w1]; simpl in *; [done | | done].
  by rewrite (Hh e w1 k Hk).
Qed.

Lemma only_touches_load (id : string) : only_touches id (load id).
Proof. by intros w k _. Qed.

Lemma only_touches_push (id : string) (change : ReplicateMsg) :
  only_touches id (pushToPeers change).
Proof. by intros w k _. Qed.

Lemma only_touches_casPut (id : string) (input : PartialDoc) :
  only_touches id (casPut id input).
Proof.
  intros w k Hk. rewrite casPut_run. cbv zeta.
  destruct (cas_admits _ _); [|done].
  destruct (nextRev_cases (stored_doc w id ≫= _rev) w) as [[g ->] | ->]; simpl; [|done].
  by rewrite lookup_insert_ne.
Qed.

Lemma only_touches_casReplace (id : string) (doc : Doc) (expected : option string) :
  only_touches id (casReplace id doc expected).
Proof.
  intros w k Hk. rewrite casReplace_run.
  destruct (JS.strict_ne _ _); simpl; [done | by rewrite lookup_insert_ne].
Qed.

Lemma only_touches_casDelete (id : string) (prevRev : option string) :
  only_touches id (casDelete id prevRev).
Proof.
  intros w k Hk. rewrite casDelete_run.
  destruct (match prevRev with Some _ => _ | None => _ end); [done|].
  destruct (stored_doc w id); simpl; [by rewrite lookup_delete_ne | done].
Qed.

Lemma only_touches_post_body (id : string) (incoming : PartialDoc) :
  only_touches id (withDocTransaction id (post_body id incoming)).
Proof.
  unfold withDocTransaction, post_body. simpl.
  apply only_touches_bind; [apply only_touches_load | intros prev].
  apply only_touches_bind; [apply only_touches_casPut | intros saved].
  apply only_touches_bind; [apply only_touches_push | intros pushed].
  destruct (has_conflicts pushed); [|apply only_touches_ret].
  apply only_touches_bind; [|intros _; apply only_touches_throw].
  destruct prev; [apply only_touches_casReplace | apply only_touches_casDelete].
Qed.

Lemma docs_post_run (body : option PartialDoc) (w : World) :
  let incoming := default empty_body body in
  let id := key_of (p_id incoming) w in
  docs_post body w =
    try_catch
      (let* result := withDocTransaction id (post_body id incoming) in
       ret {| code := 201; payload := BodyDoc result |})
      (fun e => ret {| code := status_or_500 e;
                       payload := BodyError (message_or e "Internal Error") |})
      (after_key (p_id incoming) w).
Proof. cbv zeta. unfold docs_post, bind at 1. by rewrite id_or_uuid_run. Qed.

Lemma key_of_nonempty (id : option string) (w : World) : key_of id w ≠ "".
Proof.
  unfold key_of. destruct (JS.truthy id) eqn:Ht.
  - destruct id as [s|]; [by apply truthy_Some | done].
  - apply format_nonempty.
Qed.

(** C10: a write whose [_id] is the empty string (or absent) works on a
    freshly generated UUID, which is not the empty string; neither [put]
    nor [POST /api/docs] ever changes what is stored under the empty key,
    and the document they return carries the chosen key. *)
Theorem empty_id_never_a_key :
  (∀ id w, id = None ∨ id = Some "" →
           key_of id w = Uuid.format (entropy w (drawn w))) ∧
  (∀ id w, key_of id w ≠ "") ∧
  (∀ input w, kv (snd (put input w)) !! "" = kv w !! "") ∧
  (∀ body w, kv (snd (docs_post body w)) !! "" = kv w !! "") ∧
  (∀ input w d w', put input w = (Ok d, w') →
                   _id d = key_of (p_id input) w ∧ kv w' !! _id d = Some (Json d)).
Proof.
  split; [|split; [|split; [|split]]].
  - intros id w Hid%truthy_false. unfold key_of. by rewrite Hid.
  - apply key_of_nonempty.
  - intros input w. rewrite put_run.
    rewrite (only_touches_casPut (key_of (p_id input) w) input).
    + apply (f_equal (λ m, m !! "")), after_key_kv.
    + apply not_eq_sym, key_of_nonempty.
  - intros body w. rewrite docs_post_run. cbv zeta.
    set (id := key_of _ w).
    rewrite (only_touches_catch id); first (apply (f_equal (λ m, m !! "")), after_key_kv).
    + apply only_touches_bind; [apply only_touches_post_body|].
      intros a. apply only_touches_ret.
    + intros e. apply only_touches_ret.
    + apply not_eq_sym, key_of_nonempty.
  - intros input w d w' H.
    destruct (put_stored input w w' d H) as (Hkv & Hid & _). done.
Qed.

Lemma empty_id_never_a_key_witness :
  key_of (Some "") lone_node = Uuid.format (entropy lone_node (drawn lone_node)).
Proof.
  apply (proj1 empty_id_never_a_key (Some "") lone_node). by right.
Defined.

End Frames.

(** ** Rollback after a replication conflict *)

Section Rollback.

Lemma store_invariant_empty : store_invariant ∅.
Proof. intros k v H. by rewrite lookup_empty in H. Qed.

Lemma store_invariant_insert (m : gmap string stored) (d : Doc) :
  store_invariant m → store_invariant (<[_id d := Json d]> m).
Proof.
  intros Hm k v. rewrite lookup_insert. case_decide as Hk.
  - intros [= <-]. by exists d.
  - apply Hm.
Qed.

Lemma store_invariant_delete (m : gmap string stored) (id : string) :
  store_invariant m → store_invariant (delete id m).
Proof.
  intros Hm k v. rewrite lookup_delete. case_decide; [done | apply Hm].
Qed.

(** Every write of the engine keeps the invariant. *)
Lemma store_invariant_kept (w : World) :
  store_invariant (kv w) →
  (∀ id input, store_invariant (kv (snd (casPut id input w)))) ∧
  (∀ id doc expected, store_invariant (kv (snd (casReplace id doc expected w)))) ∧
  (∀ id prevRev, store_invariant (kv (snd (casDelete id prevRev w)))) ∧
  (∀ doc prevRev, store_invariant (kv (snd (applyRemotePut doc prevRev w)))).
Proof.
  intros Hw. repeat split.
  - intros id input. rewrite casPut_run. cbv zeta. destruct (cas_admits _ _); [|done].
    destruct (nextRev_cases (stored_doc w id ≫= _rev) w) as [[g ->] | ->]; [|done].
    apply (store_invariant_insert _ (set_rev (spread (stored_doc w id) input id) _) Hw).
  - intros id doc expected. rewrite casReplace_run. destruct (JS.strict_ne _ _); [done|].
    apply (store_invariant_insert _ (force_id doc id) Hw).
  - intros id prevRev. rewrite casDelete_run.
    destruct (match prevRev with Some _ => _ | None => _ end); [done|].
    destruct (stored_doc w id); [by apply store_invariant_delete | done].
  - intros doc prevRev. rewrite applyRemotePut_run.
    destruct (negb _); [done|]. destruct (JS.strict_ne _ _); [done|].
    apply (store_invariant_insert _ (force_id doc (_id doc)) Hw).
Qed.

Lemma conflicts_found (results : list (string * peer_result)) (peer : string) :
  (peer, conflict) ∈ results →
  (0 < length (map fst (List.filter (λ r, peer_result_eqb (snd r) conflict) results)))%nat.
Proof.
  induction results as [|[p t] rest IH]; [by intros ?%elem_of_nil|].
  intros [[= <- <-] | Hin]%elem_of_cons; simpl; [lia|].
  destruct (peer_result_eqb t conflict); simpl; [lia | by apply IH].
Qed.

Lemma push_conflicts (change : ReplicateMsg) (w : World) (peer : string) :
  peer ∈ peers w → network w (peer_url peer) change = Some 409%nat →
  ∃ pushed, pushToPeers change w = (Ok pushed, w) ∧ has_conflicts pushed = true.
Proof.
  intros Hin Hnet. eexists. split; [reflexivity|].
  unfold has_conflicts. simpl. apply Nat.ltb_lt, (conflicts_found _ peer).
  apply list_elem_of_fmap. exists peer. by rewrite Hnet.
Qed.

Lemma after_key_surroundings (id : option string) (w : World) :
  peers (after_key id w) = peers w ∧ network (after_key id w) = network w.
Proof. unfold after_key. by destruct (JS.truthy id). Qed.

Lemma stored_doc_Some (w : World) (id : string) (p : Doc) :
  store_invariant (kv w) → stored_doc w id = Some p →
  kv w !! id = Some (Json p) ∧ _id p = id.
Proof.
  unfold stored_doc. intros Hinv. destruct (kv w !! id) as [v|] eqn:Hv; [|done].
  destruct (Hinv _ _ Hv) as (d & -> & Hd). by intros [= <-].
Qed.

Lemma stored_doc_None (w : World) (id : string) :
  store_invariant (kv w) → stored_doc w id = None → kv w !! id = None.
Proof.
  unfold stored_doc. intros Hinv. destruct (kv w !! id) as [v|] eqn:Hv; [|done].
  by destruct (Hinv _ _ Hv) as (d & -> & Hd).
Qed.



(** A request that finds the mutex free runs at once; its response and
    its effect on the store are those of the handler run as one
    computation on the world. *)
Lemma locking_docs_post_free (caller : nat) (body : option PartialDoc) (n : Locking.Node) :
  Locking.is_held (key_of (p_id (default empty_body body)) (Locking.store n)) n = false →
  ∃ n', Locking.docs_post caller body n
          = Locking.Finished (fst (docs_post body (Locking.store n))) n' ∧
        Locking.store n' = snd (docs_post body (Locking.store n)).
Proof.
  intros Hfree. rewrite docs_post_run. cbv zeta.
  unfold Locking.docs_post, Locking.in_store. rewrite id_or_uuid_run. simpl.
  set (incoming := default empty_body body) in *.
  set (id := key_of (p_id incoming) (Locking.store n)) in *.
  unfold Locking.withDocTransaction, Locking.getMutex, Locking.is_held in *. simpl.
  unfold try_catch, bind.
  destruct (Locking.mutexes n !! id) as [m|] eqn:Hm; simpl.
  - unfold acquire. unfold isLocked in Hfree. rewrite Hfree. simpl.
    unfold Locking.holding, Locking.in_store. simpl.
    destruct (withDocTransaction id (post_body id incoming) _) as [[d|e|] w'];
      simpl; eexists; split; reflexivity.
  - unfold Locking.holding, Locking.in_store. simpl.
    destruct (withDocTransaction id (post_body id incoming) _) as [[d|e|] w'];
      simpl; eexists; split; reflexivity.
Qed.

(** [acquire] leaves the mutex of [id] locked, whether the caller is
    given the lock at once or parked behind its holder. *)
Lemma acquire_locks (caller : nat) (id : string) (n : Locking.Node) :
  let got := Locking.getMutex id n in
  Locking.is_held id (Locking.set_mutex id (fst (acquire caller (fst got))) (snd got)) = true.
Proof.
  unfold Locking.is_held, Locking.set_mutex, Locking.getMutex.
  destruct (Locking.mutexes n !! id) as [m|]; simpl; rewrite lookup_insert_eq;
    unfold acquire, isLocked; [|done].
  by destruct (locked m) eqn:E.
Qed.

(** The request as a whole: it picks its key and calls [acquire]; behind
    a holder it is parked with the store untouched, otherwise it goes on
    as [Locking.docs_post_holding] in a process where the mutex of the
    key is locked. *)
Lemma locking_docs_post_run (caller : nat) (body : option PartialDoc) (n : Locking.Node) :
  let incoming := default empty_body body in
  let id := key_of (p_id incoming) (Locking.store n) in
  let keyed := {| Locking.store := after_key (p_id incoming) (Locking.store n);
                  Locking.mutexes := Locking.mutexes n |} in
  let n1 := Locking.set_mutex id (fst (acquire caller (fst (Locking.getMutex id keyed))))
                              (snd (Locking.getMutex id keyed)) in
  Locking.is_held id n1 = true ∧
  Locking.store n1 = after_key (p_id incoming) (Locking.store n) ∧
  Locking.docs_post caller body n =
    if Locking.is_held id n then Locking.Parked n1
    else Locking.Finished (fst (Locking.docs_post_holding id incoming n1))
                          (snd (Locking.docs_post_holding id incoming n1)).
Proof.
  intros incoming id keyed n1. split; [apply acquire_locks|]. split.
  { unfold n1, Locking.getMutex. simpl. by destruct (Locking.mutexes n !! id). }
  unfold Locking.docs_post, Locking.in_store. rewrite id_or_uuid_run. simpl.
  fold incoming id. unfold Locking.withDocTransaction, Locking.docs_post_holding.
  subst n1 keyed.
  unfold Locking.is_held, Locking.getMutex, isLocked, acquire. simpl.
  destruct (Locking.mutexes n !! id) as [m|]; simpl; [|done].
  by destruct (locked m).
Qed.

(** A [release] that resumes a parked caller hands the lock over without
    unlocking the mutex. *)
Lemma release_hands_over (m : Mutex) (next : nat) (rest : list nat) :
  queue m = next :: rest → locked m = true →
  release m = ({| queue := rest; locked := true |}, Some next).
Proof. unfold release. by intros -> ->. Qed.




End Rollback.

(** ** The replication receiver *)

Section Receiver.

Lemma strict_ne_put_del (o : option string) :
  o ≠ Some "put" → o ≠ Some "del" →
  JS.strict_ne o (Some "put") = true ∧ JS.strict_ne o (Some "del") = true.
Proof. intros H1 H2. split; by apply strict_ne_true. Qed.

(** C7, as the code has it: a body that lacks [op] or [_id], names an
    [op] other than ["put"] and ["del"], or is a ["put"] without [doc] or
    with [doc._id] unequal to [_id] or [doc._rev] unequal to [rev], gets
    400 and the store is untouched; any other body is handed to
    [applyRemotePut] or [applyRemoteDel], success is answered 200
    [{ok:true}], and an engine error is answered with the status it
    carries, 409 for CONFLICT and 400 for a missing [_rev], or with 500
    when it carries none. *)
Theorem replicate_post_spec :
  (∀ body w,
     match body with
     | None => True
     | Some b =>
         JS.truthy (op b) = false ∨ JS.truthy (body_id b) = false ∨
         (op b ≠ Some "put" ∧ op b ≠ Some "del") ∨
         (op b = Some "put" ∧
          match body_doc b with
          | None => True
          | Some doc => p_id doc ≠ body_id b ∨ p_rev doc ≠ body_rev b
          end)
     end →
     ∃ msg, replicate_post body w = (Ok (bad_request msg), w)) ∧
  (∀ b w id doc,
     op b = Some "put" → body_id b = Some id → id ≠ "" →
     body_doc b = Some doc → p_id doc = Some id → p_rev doc = body_rev b →
     replicate_post (Some b) w =
       match applyRemotePut {| _id := id; _rev := p_rev doc; attrs := p_attrs doc |}
                            (body_prevRev b) w with
       | (Ok _, w') => (Ok {| code := 200; payload := BodyOk |}, w')
       | (Throw e, w') =>
           (Ok {| code := status_or_500 e; payload := BodyError (message_or e "error") |}, w')
       | (OutOfModel, w') => (OutOfModel, w')
       end) ∧
  (∀ b w id,
     op b = Some "del" → body_id b = Some id → id ≠ "" →
     replicate_post (Some b) w =
       match applyRemoteDel id (body_prevRev b) w with
       | (Ok _, w') => (Ok {| code := 200; payload := BodyOk |}, w')
       | (Throw e, w') =>
           (Ok {| code := status_or_500 e; payload := BodyError (message_or e "error") |}, w')
       | (OutOfModel, w') => (OutOfModel, w')
       end) ∧
  status_or_500 conflict_mismatch = 409%nat ∧
  status_or_500 invalid_missing_rev = 400%nat ∧
  (∀ e, status e = None → status_or_500 e = 500%nat).
Proof.
  split; [|split; [|split; [|split; [|split]]]]; try done.
  - intros [b|] w; [|by exists "invalid payload"].
    unfold replicate_post.
    destruct (JS.truthy (op b)) eqn:Hop; simpl; [|by exists "invalid payload"].
    destruct (JS.truthy (body_id b)) eqn:Hid; simpl; [|by exists "invalid payload"].
    intros [? | [? | [[Hp Hd] | [Hp Hdoc]]]]; [done | done | |].
    + destruct (strict_ne_put_del _ Hp Hd) as [-> ->]. by exists "invalid op".
    + rewrite Hp. unfold try_catch. simpl.
      destruct (body_doc b) as [doc|]; [|by exists "invalid put payload"].
      exists "invalid put payload".
      destruct Hdoc as [H | H]; apply strict_ne_true in H; rewrite H; [done|].
      by rewrite orb_true_r.
  - intros b w id doc Hop Hid Hne Hdoc Hpid Hrev. unfold replicate_post.
    apply truthy_Some in Hne. rewrite Hop, Hid, Hne, Hdoc. simpl.
    rewrite Hpid, Hrev, !strict_ne_refl. simpl.
    unfold doc_of_partial. rewrite Hpid, Hrev. unfold try_catch, bind.
    by destruct (applyRemotePut _ _ w) as [[?|?|] ?].
  - intros b w id Hop Hid Hne. unfold replicate_post.
    apply truthy_Some in Hne. rewrite Hop, Hid, Hne. simpl.
    unfold try_catch, bind.
    by destruct (applyRemoteDel _ _ w) as [[?|?|] ?].
  - intros e He. unfold status_or_500. by rewrite He.
Qed.

Lemma replicate_post_spec_witness :
  replicate_post
    (Some {| op := Some "put"; body_id := Some "x"; body_prevRev := Some "1-0badcafe";
             body_rev := Some "2-0badcafe";
             body_doc := Some {| p_id := Some "x"; p_rev := Some "2-0badcafe";
                                 p_attrs := ∅ |} |})
    lone_node =
  (Ok {| code := 409; payload := BodyError "conflict: revision mismatch" |}, lone_node).
Proof.
  apply (proj1 (proj2 replicate_post_spec)
           {| op := Some "put"; body_id := Some "x"; body_prevRev := Some "1-0badcafe";
              body_rev := Some "2-0badcafe";
              body_doc := Some {| p_id := Some "x"; p_rev := Some "2-0badcafe";
                                  p_attrs := ∅ |} |}
           lone_node "x" {| p_id := Some "x"; p_rev := Some "2-0badcafe"; p_attrs := ∅ |});
    (reflexivity || discriminate).
Defined.

(** C7 as stated fails: the body below has [op], [_id] and [doc], its
    [doc._id] equals [_id] and its [doc._rev] equals [rev] (both absent);
    it is handed to [applyRemotePut], whose error is not CONFLICT, and the
    answer is 400 rather than 500. *)
Lemma replicate_post_engine_400 :
  let doc := {| p_id := Some "x"; p_rev := None; p_attrs := ∅ |} in
  let b := {| op := Some "put"; body_id := Some "x"; body_prevRev := None;
              body_rev := None; body_doc := Some doc |} in
  p_id doc = body_id b ∧ p_rev doc = body_rev b ∧
  applyRemotePut {| _id := "x"; _rev := None; attrs := ∅ |} None lone_node =
    (Throw invalid_missing_rev, lone_node) ∧
  invalid_missing_rev ≠ conflict_mismatch ∧
  replicate_post (Some b) lone_node =
    (Ok {| code := 400; payload := BodyError "invalid: missing _rev for remote put" |},
     lone_node).
Proof. repeat split; done. Qed.

End Receiver.

(** ** Deletes, reads after writes, and spent revisions *)

Section EngineLaws.

Lemma applyRemoteDel_run (id : string) (prevRev : option string) (w : World) :
  applyRemoteDel id prevRev w =
    if JS.strict_ne (JS.or_undefined (stored_doc w id ≫= _rev)) (JS.or_undefined prevRev)
    then (Throw conflict_mismatch, w)
    else match stored_doc w id with
         | Some _ => (Ok tt, with_kv w (delete id (kv w)))
         | None => (Ok tt, w)
         end.
Proof.
  unfold applyRemoteDel, bind. rewrite load_run.
  destruct (JS.strict_ne _ _); [done|]. by destruct (stored_doc w id).
Qed.

Lemma stored_doc_delete (w : World) (m : gmap string stored) (id : string) :
  stored_doc (with_kv w (delete id m)) id = None.
Proof. unfold stored_doc. simpl. by rewrite lookup_delete_eq. Qed.

Lemma with_kv_same (w : World) : with_kv w (kv w) = w.
Proof. by destruct w. Qed.

(** What a delete that went through leaves behind. *)
Lemma deleted_if_present (id : string) (w : World) :
  let w' := match stored_doc w id with
            | Some _ => with_kv w (delete id (kv w))
            | None => w
            end in
  stored_doc w' id = None ∧
  (∀ k, k ≠ id → kv w' !! k = kv w !! k) ∧
  (stored_doc w id = None → w' = w).
Proof.
  destruct (stored_doc w id) eqn:Hd; simpl.
  - split; [apply stored_doc_delete|]. split; [|done].
    intros k Hk. by rewrite lookup_delete_ne.
  - done.
Qed.

(** [applyRemoteDel] goes through exactly when the stored [_rev] and
    [prevRev] agree once an empty string is read as absent; the document
    is then gone, other keys are as before, and nothing changes at all if
    no document was stored. On a mismatch it throws CONFLICT and the store
    is unchanged. *)
Theorem applyRemoteDel_spec (id : string) (prevRev : option string) (w : World) :
  let current := stored_doc w id ≫= _rev in
  (JS.or_undefined current = JS.or_undefined prevRev →
     ∃ w', applyRemoteDel id prevRev w = (Ok tt, w') ∧
           stored_doc w' id = None ∧
           (∀ k, k ≠ id → kv w' !! k = kv w !! k) ∧
           (stored_doc w id = None → w' = w)) ∧
  (JS.or_undefined current ≠ JS.or_undefined prevRev →
     applyRemoteDel id prevRev w = (Throw conflict_mismatch, w)).
Proof.
  cbv zeta. rewrite applyRemoteDel_run. split.
  - intros ->. rewrite strict_ne_refl. eexists. split; [|apply deleted_if_present].
    by destruct (stored_doc w id).
  - by intros ->%strict_ne_true.
Qed.

Lemma applyRemoteDel_spec_witness :
  applyRemoteDel "x" (Some "9-0badcafe") lone_node = (Throw conflict_mismatch, lone_node).
Proof.
  apply (proj2 (applyRemoteDel_spec "x" (Some "9-0badcafe") lone_node)). discriminate.
Defined.

(** [tx.del] without an expected revision never fails; with one it
    throws CONFLICT, leaving the store unchanged, exactly when the stored
    [_rev] and the expected one differ after an empty string is read as
    absent. When it goes through, no document is readable under the key
    and the other keys are as before. *)
Theorem tx_del_spec (id : string) (prevRev : option string) (w : World) :
  let current := stored_doc w id ≫= _rev in
  (prevRev = None ∨ JS.or_undefined current = JS.or_undefined prevRev →
     ∃ w', casDelete id prevRev w = (Ok tt, w') ∧
           stored_doc w' id = None ∧
           (∀ k, k ≠ id → kv w' !! k = kv w !! k) ∧
           (stored_doc w id = None → w' = w)) ∧
  (prevRev ≠ None → JS.or_undefined current ≠ JS.or_undefined prevRev →
     casDelete id prevRev w = (Throw conflict_mismatch, w)).
Proof.
  cbv zeta. rewrite casDelete_run. split.
  - intros Hok.
    assert (match prevRev with
            | Some _ => JS.strict_ne (JS.or_undefined (stored_doc w id ≫= _rev))
                                     (JS.or_undefined prevRev)
            | None => false
            end = false) as ->.
    { destruct prevRev as [p|]; [|done].
      destruct Hok as [? | ->]; [done | apply strict_ne_refl]. }
    eexists. split; [|apply deleted_if_present]. by destruct (stored_doc w id).
  - intros Hsome Hne%strict_ne_true. destruct prevRev; [by rewrite Hne | done].
Qed.

Lemma tx_del_spec_witness :
  ∃ w', casDelete "x" None contested_with_doc = (Ok tt, w') ∧
        stored_doc w' "x" = None ∧
        (∀ k, k ≠ "x" → kv w' !! k = kv contested_with_doc !! k) ∧
        (stored_doc contested_with_doc "x" = None → w' = contested_with_doc).
Proof. apply (proj1 (tx_del_spec "x" None contested_with_doc)). by left. Defined.

(** After a [tx.replaceExact] that went through, a read of the key finds
    a document whose [_id] is the key of the transaction and whose [_rev]
    is the [_rev] of the document that was passed in, not a newly
    allocated one. Nothing is said of the other attributes, which are
    read back from JSON text. *)
Theorem replaceExact_then_get
    (id : string) (doc : Doc) (expected : option string) (w w' : World) :
  casReplace id doc expected w = (Ok tt, w') →
  ∃ d, get id w' = (Ok (Some d), w') ∧ _id d = id ∧ _rev d = _rev doc.
Proof.
  rewrite casReplace_run. destruct (JS.strict_ne _ _); [done|]. intros [= <-].
  exists (force_id doc id). unfold get. by rewrite load_run, stored_doc_insert.
Qed.

Lemma replaceExact_then_get_witness :
  let doc := {| _id := "y"; _rev := Some "7-0badcafe"; attrs := ∅ |} in
  let w' := with_kv lone_node (<["x" := Json (force_id doc "x")]> (kv lone_node)) in
  ∃ d, get "x" w' = (Ok (Some d), w') ∧ _id d = "x" ∧ _rev d = Some "7-0badcafe".
Proof.
  intros doc w'. apply (replaceExact_then_get "x" doc None lone_node w'). reflexivity.
Defined.

(** A [put] that went through can be read back: [get] on the returned
    [_id] finds a document with the [_id] and the [_rev] that [put]
    returned. Nothing is said of the other attributes, which are read
    back from JSON text. *)
Theorem put_then_get (input : PartialDoc) (w w' : World) (d : Doc) :
  put input w = (Ok d, w') →
  ∃ d', get (_id d) w' = (Ok (Some d'), w') ∧ _id d' = _id d ∧ _rev d' = _rev d.
Proof.
  intros H. destruct (put_stored input w w' d H) as (Hkv & _).
  exists d. unfold get. rewrite load_run. unfold stored_doc. by rewrite Hkv.
Qed.

Lemma put_then_get_witness :
  let input := {| p_id := Some "x"; p_rev := None; p_attrs := ∅ |} in
  let d := {| _id := "x"; _rev := Some "1-deadbeef"; attrs := ∅ |} in
  ∃ d', get (_id d) (snd (put input lone_node)) = (Ok (Some d'), snd (put input lone_node)) ∧
        _id d' = _id d ∧ _rev d' = _rev d.
Proof.
  intros input d. apply (put_then_get input lone_node). vm_compute. reflexivity.
Defined.

(** [del] never fails, also on a key that holds nothing, where it changes
    nothing; afterwards [get] finds nothing, the other keys are as before,
    and a second [del] changes nothing more. *)
Theorem del_idempotent (id : string) (w : World) :
  ∃ w', del id w = (Ok tt, w') ∧
        get id w' = (Ok None, w') ∧
        (∀ k, k ≠ id → kv w' !! k = kv w !! k) ∧
        (kv w !! id = None → w' = w) ∧
        del id w' = (Ok tt, w').
Proof.
  exists (with_kv w (delete id (kv w))). split; [done|].
  split; [|split; [|split]].
  - unfold get. by rewrite load_run, stored_doc_delete.
  - intros k Hk. simpl. by rewrite lookup_delete_ne.
  - intros Hnone. rewrite delete_id by done. apply with_kv_same.
  - unfold del, db_del. simpl. f_equal. unfold with_kv. simpl. f_equal.
    apply delete_delete_eq.
Qed.

Lemma del_idempotent_witness :
  ∃ w', del "x" contested_with_doc = (Ok tt, w') ∧
        get "x" w' = (Ok None, w') ∧
        (∀ k, k ≠ "x" → kv w' !! k = kv contested_with_doc !! k) ∧
        (kv contested_with_doc !! "x" = None → w' = contested_with_doc) ∧
        del "x" w' = (Ok tt, w').
Proof. apply (del_idempotent "x" contested_with_doc). Defined.





End EngineLaws.

(** ** Fan-out and the outcomes of [POST /api/docs] *)

Section Orchestration.

Lemma classify_ack (res : option nat) : classify res = ack ↔ res = Some 200%nat.
Proof.
  destruct res as [st|]; simpl; [|done].
  destruct (st =? 200)%nat eqn:E200.
  - apply Nat.eqb_eq in E200 as ->. done.
  - apply Nat.eqb_neq in E200.
    destruct (st =? 409)%nat; split; try done; intros [= ->]; done.
Qed.

Lemma classify_conflict (res : option nat) : classify res = conflict ↔ res = Some 409%nat.
Proof.
  destruct res as [st|]; simpl; [|done].
  destruct (st =? 200)%nat eqn:E200.
  - apply Nat.eqb_eq in E200 as ->. done.
  - destruct (st =? 409)%nat eqn:E409.
    + apply Nat.eqb_eq in E409 as ->. done.
    + apply Nat.eqb_neq in E409. split; [done | by intros [= ->]].
Qed.

Lemma classify_failure (res : option nat) :
  classify res = failure ↔ res ≠ Some 200%nat ∧ res ≠ Some 409%nat.
Proof.
  destruct (classify res) eqn:E.
  - apply classify_ack in E as ->. split; [done | by intros [? _]].
  - apply classify_conflict in E as ->. split; [done | by intros [_ ?]].
  - split; [intros _ | done]. split; intros ->; done.
Qed.

Lemma picked (c : string → peer_result) (t : peer_result) (l : list string) (p : string) :
  p ∈ map fst (List.filter (λ r, peer_result_eqb (snd r) t) (map (λ b, (b, c b)) l))
  ↔ p ∈ l ∧ c p = t.
Proof.
  induction l as [|b l IH]; simpl.
  - split; [by intros ?%elem_of_nil | by intros [?%elem_of_nil _]].
  - destruct (peer_result_eqb (c b) t) eqn:E; simpl.
    + rewrite !elem_of_cons, IH.
      assert (c b = t) as Hb by (by destruct (c b), t).
      split; [intros [-> | [? ?]]; auto | intros [[-> | ?] ?]; auto].
    + rewrite elem_of_cons, IH.
      assert (c b ≠ t) as Hb by (intros <-; by destruct (c b)).
      split; [intros [? ?]; auto | intros [[-> | ?] ?]; [done | auto]].
Qed.

Lemma picked_lengths (c : string → peer_result) (l : list string) :
  let pick t := map fst (List.filter (λ r, peer_result_eqb (snd r) t)
                                     (map (λ b, (b, c b)) l)) in
  (length (pick ack) + length (pick conflict) + length (pick failure))%nat = length l.
Proof.
  induction l as [|b l IH]; simpl; [done|].
  simpl in IH. destruct (c b); simpl; lia.
Qed.

Lemma push_sorted (change : ReplicateMsg) (w : World) :
  ∃ r, pushToPeers change w = (Ok r, w) ∧
       (∀ p, p ∈ acks r ↔ p ∈ peers w ∧ network w (peer_url p) change = Some 200%nat) ∧
       (∀ p, p ∈ conflicts r ↔ p ∈ peers w ∧ network w (peer_url p) change = Some 409%nat) ∧
       (∀ p, p ∈ failures r ↔
             p ∈ peers w ∧ network w (peer_url p) change ≠ Some 200%nat
                         ∧ network w (peer_url p) change ≠ Some 409%nat) ∧
       (length (acks r) + length (conflicts r) + length (failures r))%nat
         = length (peers w).
Proof.
  eexists. split; [reflexivity|]. simpl.
  set (c := λ b, classify (network w (peer_url b) change)).
  split; [|split; [|split]].
  - intros p. etrans; [apply (picked c)|]. unfold c. by rewrite classify_ack.
  - intros p. etrans; [apply (picked c)|]. unfold c. by rewrite classify_conflict.
  - intros p. etrans; [apply (picked c)|]. unfold c. by rewrite classify_failure.
  - apply (picked_lengths c).
Qed.

(** [pushToPeers] sorts every configured peer into exactly one of the
    three lists: [acks] for an answer of 200, [conflicts] for 409,
    [failures] for any other answer or none; it changes nothing locally. *)
Theorem pushToPeers_classifies (change : ReplicateMsg) (w : World) :
  ∃ r, pushToPeers change w = (Ok r, w) ∧
       (∀ p, p ∈ acks r ↔ p ∈ peers w ∧ network w (peer_url p) change = Some 200%nat) ∧
       (∀ p, p ∈ conflicts r ↔ p ∈ peers w ∧ network w (peer_url p) change = Some 409%nat) ∧
       (∀ p, p ∈ failures r ↔
             p ∈ peers w ∧ network w (peer_url p) change ≠ Some 200%nat
                         ∧ network w (peer_url p) change ≠ Some 409%nat) ∧
       (length (acks r) + length (conflicts r) + length (failures r))%nat
         = length (peers w).
Proof. apply push_sorted. Qed.

Lemma pushToPeers_classifies_witness :
  ∃ r, pushToPeers (ReplicateDel "x" None) contested_node = (Ok r, contested_node) ∧
       "http://peer:3000/" ∈ conflicts r.
Proof.
  destruct (pushToPeers_classifies (ReplicateDel "x" None) contested_node)
    as (r & Hr & _ & Hc & _).
  exists r. split; [exact Hr|]. apply Hc. split; [simpl; by left | reflexivity].
Defined.

Lemma push_quiet (change : ReplicateMsg) (w : World) :
  (∀ peer, peer ∈ peers w → network w (peer_url peer) change ≠ Some 409%nat) →
  ∃ pushed, pushToPeers change w = (Ok pushed, w) ∧ has_conflicts pushed = false.
Proof.
  intros Hnone. destruct (push_sorted change w) as (r & Hr & _ & Hc & _).
  exists r. split; [done|]. unfold has_conflicts.
  destruct (conflicts r) as [|p rest] eqn:E; [done|].
  destruct (proj1 (Hc p)) as [Hin Hnet]; [by left|].
  by destruct (Hnone p Hin).
Qed.

Lemma message_or_nonempty (e : error) (fallback : string) :
  message e ≠ "" → message_or e fallback = message e.
Proof. intros H%truthy_Some. unfold message_or. by rewrite H. Qed.

(** [POST /api/docs] commits when the local [tx.put] goes through and no
    peer answers 409, peers that fail or cannot be reached included: the
    answer is 201 with the saved document, and that document is what the
    store holds under its [_id]. *)
Theorem post_commits (body : option PartialDoc) (w w2 : World) (saved : Doc) :
  let incoming := default empty_body body in
  let id := key_of (p_id incoming) w in
  let prev := stored_doc w id in
  casPut id {| p_id := Some id; p_rev := p_rev incoming; p_attrs := p_attrs incoming |}
         (after_key (p_id incoming) w) = (Ok saved, w2) →
  (∀ peer, peer ∈ peers w →
           network w (peer_url peer)
                   (ReplicatePut (_id saved) (prev ≫= _rev) (_rev saved) saved)
             ≠ Some 409%nat) →
  docs_post body w = (Ok {| code := 201; payload := BodyDoc saved |}, w2) ∧
  kv w2 !! id = Some (Json saved) ∧ _id saved = id.
Proof.
  intros incoming id prev Hput Hquiet.
  destruct (after_key_surroundings (p_id incoming) w) as [Hpeers Hnetw].
  pose proof Hput as (r & Hr & Hsaved & Hw2)%casPut_Ok.
  destruct (push_quiet (ReplicatePut (_id saved) (prev ≫= _rev) (_rev saved) saved) w2)
    as (pushed & Hpush & Hconf).
  { rewrite Hw2. simpl. rewrite Hpeers, Hnetw. exact Hquiet. }
  split; [|by destruct (casPut_stored _ _ _ _ _ Hput) as (? & ? & _)].
  rewrite docs_post_run. cbv zeta. fold incoming id.
  unfold try_catch, withDocTransaction, post_body. simpl.
  unfold bind at 1. unfold bind at 1. rewrite load_run.
  rewrite stored_doc_after_key. fold prev.
  unfold bind at 1. rewrite Hput.
  unfold bind at 1. by rewrite Hpush, Hconf.
Qed.

Lemma post_commits_witness :
  let body := Some {| p_id := Some "x"; p_rev := None; p_attrs := ∅ |} in
  let saved := {| _id := "x"; _rev := Some "1-deadbeef"; attrs := ∅ |} in
  docs_post body lone_node =
    (Ok {| code := 201; payload := BodyDoc saved |},
     snd (casPut "x" {| p_id := Some "x"; p_rev := None; p_attrs := ∅ |} lone_node)) ∧
  kv (snd (casPut "x" {| p_id := Some "x"; p_rev := None; p_attrs := ∅ |} lone_node)) !! "x"
    = Some (Json saved) ∧
  _id saved = "x".
Proof.
  intros body saved. apply (post_commits body lone_node).
  - vm_compute. reflexivity.
  - simpl. by intros peer ?%elem_of_nil.
Defined.

(** [POST /api/docs] whose local compare-and-swap fails is answered 409
    with the engine's message, and the store is left as it was. *)
Theorem post_local_conflict (body : option PartialDoc) (w : World) :
  let incoming := default empty_body body in
  let id := key_of (p_id incoming) w in
  let existing := stored_doc w id in
  match existing with
  | Some ex => ¬ ∃ r, r ≠ "" ∧ p_rev incoming = Some r ∧ _rev ex = Some r
  | None => JS.truthy (p_rev incoming) = true
  end →
  docs_post body w =
    (Ok {| code := 409; payload := BodyError (message (cas_error existing)) |},
     after_key (p_id incoming) w) ∧
  kv (after_key (p_id incoming) w) = kv w.
Proof.
  intros incoming id existing Hno. split; [|apply after_key_kv].
  assert (cas_admits existing
            {| p_id := Some id; p_rev := p_rev incoming; p_attrs := p_attrs incoming |}
          = false) as Hadm.
  { apply not_true_iff_false. rewrite cas_admits_iff. simpl.
    destruct existing; [done|]. intros Hf%truthy_false. congruence. }
  rewrite docs_post_run. cbv zeta. fold incoming id.
  unfold try_catch, withDocTransaction, post_body. simpl.
  unfold bind at 1. unfold bind at 1. rewrite load_run.
  unfold bind at 1. rewrite casPut_run. cbv zeta.
  rewrite stored_doc_after_key. fold existing. rewrite Hadm.
  unfold ret, status_or_500. rewrite cas_error_409, message_or_nonempty; [done|].
  by destruct existing.
Qed.

Lemma post_local_conflict_witness :
  docs_post (Some {| p_id := Some "x"; p_rev := Some "0-bad"; p_attrs := ∅ |})
            contested_with_doc =
    (Ok {| code := 409; payload := BodyError "conflict: revision mismatch" |},
     contested_with_doc) ∧
  kv contested_with_doc = kv contested_with_doc.
Proof.
  apply (post_local_conflict
           (Some {| p_id := Some "x"; p_rev := Some "0-bad"; p_attrs := ∅ |})
           contested_with_doc).
  change (¬ ∃ r, r ≠ "" ∧ Some "0-bad" = Some r ∧ Some "1-0badcafe" = Some r).
  intros (r & _ & [= <-] & [=]).
Defined.

End Orchestration.

(** ** Reads after the routes, and [DELETE /api/docs/:id] *)

Section Routes.

Lemma docs_post_created (body : option PartialDoc) (w w' : World) (d : Doc) :
  let incoming := default empty_body body in
  let id := key_of (p_id incoming) w in
  docs_post body w = (Ok {| code := 201; payload := BodyDoc d |}, w') →
  casPut id {| p_id := Some id; p_rev := p_rev incoming; p_attrs := p_attrs incoming |}
         (after_key (p_id incoming) w) = (Ok d, w').
Proof.
  intros incoming id. rewrite docs_post_run. cbv zeta. fold incoming id.
  unfold try_catch, withDocTransaction, post_body. simpl.
  unfold bind at 1. unfold bind at 1. rewrite load_run.
  unfold bind at 1.
  destruct (casPut id _ _) as [[saved|e|] w2]; [|done..].
  unfold bind at 1. unfold pushToPeers at 1.
  destruct (has_conflicts _).
  - unfold bind at 1.
    destruct (stored_doc _ id) as [p|]; simpl.
    + by destruct (casReplace id p (_rev saved) w2) as [[[]|?|] ?].
    + by destruct (casDelete id (_rev saved) w2) as [[[]|?|] ?].
  - by intros [= <- <-].
Qed.

(** A document created or updated through [POST /api/docs] is what
    [GET /api/docs/:id] then returns under the [_id] of the answer. *)
Theorem post_then_get (body : option PartialDoc) (w w' : World) (d : Doc) :
  docs_post body w = (Ok {| code := 201; payload := BodyDoc d |}, w') →
  docs_get (_id d) w' = (Ok {| code := 200; payload := BodyDoc d |}, w').
Proof.
  intros H%docs_post_created.
  destruct (casPut_stored _ _ _ _ _ H) as (Hkv & Hid & _).
  unfold docs_get, get, bind. rewrite load_run. unfold stored_doc.
  by rewrite Hid, Hkv.
Qed.

Lemma post_then_get_witness :
  let d := {| _id := "x"; _rev := Some "1-deadbeef"; attrs := ∅ |} in
  let w' := snd (docs_post (Some {| p_id := Some "x"; p_rev := None; p_attrs := ∅ |})
                           lone_node) in
  docs_get (_id d) w' = (Ok {| code := 200; payload := BodyDoc d |}, w').
Proof.
  intros d w'.
  apply (post_then_get (Some {| p_id := Some "x"; p_rev := None; p_attrs := ∅ |}) lone_node).
  vm_compute. reflexivity.
Defined.

Lemma delete_body_start (id : string) (w : World) :
  casDelete id None w =
    (Ok tt, match stored_doc w id with
            | Some _ => with_kv w (delete id (kv w))
            | None => w
            end).
Proof. rewrite casDelete_run. by destruct (stored_doc w id). Qed.

Lemma deleted_surroundings (id : string) (w : World) :
  let w1 := match stored_doc w id with
            | Some _ => with_kv w (delete id (kv w))
            | None => w
            end in
  peers w1 = peers w ∧ network w1 = network w.
Proof. by destruct (stored_doc w id). Qed.

(** [DELETE /api/docs/:id] commits when no peer answers 409, whether or
    not a document was stored: the answer is 204, nothing is readable
    under the id afterwards ([GET] answers 404), the other keys are as
    before, and nothing changes at all if no document was stored. *)
Theorem delete_commits (id : string) (w : World) :
  (∀ peer, peer ∈ peers w →
           network w (peer_url peer) (ReplicateDel id (stored_doc w id ≫= _rev))
             ≠ Some 409%nat) →
  ∃ w', docs_delete id w = (Ok {| code := 204; payload := BodyEmpty |}, w') ∧
        docs_get id w' = (Ok {| code := 404; payload := BodyError "Not found" |}, w') ∧
        (∀ k, k ≠ id → kv w' !! k = kv w !! k) ∧
        (stored_doc w id = None → w' = w).
Proof.
  intros Hquiet.
  set (w1 := match stored_doc w id with
             | Some _ => with_kv w (delete id (kv w))
             | None => w
             end).
  destruct (deleted_surroundings id w) as [Hpeers Hnetw]. fold w1 in Hpeers, Hnetw.
  destruct (push_quiet (ReplicateDel id (stored_doc w id ≫= _rev)) w1)
    as (pushed & Hpush & Hconf).
  { by rewrite Hpeers, Hnetw. }
  destruct (deleted_if_present id w) as (Hgone & Hframe & Hsame). fold w1 in Hgone, Hframe, Hsame.
  exists w1. split; [|split; [|done]].
  - unfold docs_delete, try_catch, withDocTransaction, delete_body. simpl.
    unfold bind at 1. unfold bind at 1. unfold bind at 1. rewrite load_run.
    unfold bind at 1. rewrite delete_body_start. fold w1.
    unfold bind at 1. by rewrite Hpush, Hconf.
  - unfold docs_get, get, bind. by rewrite load_run, Hgone.
Qed.

Lemma delete_commits_witness :
  ∃ w', docs_delete "x" lone_node = (Ok {| code := 204; payload := BodyEmpty |}, w') ∧
        docs_get "x" w' = (Ok {| code := 404; payload := BodyError "Not found" |}, w') ∧
        (∀ k, k ≠ "x" → kv w' !! k = kv lone_node !! k) ∧
        (stored_doc lone_node "x" = None → w' = lone_node).
Proof.
  apply (delete_commits "x" lone_node). simpl. by intros peer ?%elem_of_nil.
Defined.

(** [DELETE /api/docs/:id] that meets a 409 from a peer puts the deleted
    document back with [tx.replaceExact(prev, undefined)] and answers 409:
    the store is what it was before the request. *)
Theorem delete_conflict_rolls_back (id : string) (w : World) (peer : string) :
  store_invariant (kv w) →
  peer ∈ peers w →
  network w (peer_url peer) (ReplicateDel id (stored_doc w id ≫= _rev)) = Some 409%nat →
  ∃ w', docs_delete id w =
          (Ok {| code := 409; payload := BodyError "replication conflict" |}, w') ∧
        kv w' = kv w.
Proof.
  intros Hinv Hin Hnet.
  set (w1 := match stored_doc w id with
             | Some _ => with_kv w (delete id (kv w))
             | None => w
             end).
  destruct (deleted_surroundings id w) as [Hpeers Hnetw]. fold w1 in Hpeers, Hnetw.
  destruct (push_conflicts (ReplicateDel id (stored_doc w id ≫= _rev)) w1 peer)
    as (pushed & Hpush & Hconf).
  { by rewrite Hpeers. }
  { by rewrite Hnetw. }
  destruct (deleted_if_present id w) as (Hgone & _ & Hsame). fold w1 in Hgone, Hsame.
  assert (∀ w', (match stored_doc w id with
                 | Some p => casReplace id p None
                 | None => ret tt
                 end) w1 = (Ok tt, w') →
                docs_delete id w =
                  (Ok {| code := 409; payload := BodyError "replication conflict" |}, w'))
    as Hrun.
  { intros w' Hstep.
    unfold docs_delete, try_catch, withDocTransaction, delete_body. simpl.
    unfold bind at 1. unfold bind at 1. unfold bind at 1. rewrite load_run.
    unfold bind at 1. rewrite delete_body_start. fold w1.
    unfold bind at 1. rewrite Hpush, Hconf.
    by rewrite Hstep. }
  destruct (stored_doc w id) as [p|] eqn:Hprev.
  - destruct (stored_doc_Some w id p Hinv Hprev) as [Hkv Hid].
    eexists. split.
    + apply Hrun. rewrite casReplace_run, Hgone. simpl. reflexivity.
    + unfold w1. simpl. rewrite insert_delete_eq.
      rewrite <- Hid, force_id_same, Hid. by apply insert_id.
  - exists w. split; [by apply Hrun | done].
Qed.

Lemma delete_conflict_rolls_back_witness :
  ∃ w', docs_delete "x" contested_with_doc =
          (Ok {| code := 409; payload := BodyError "replication conflict" |}, w') ∧
        kv w' = kv contested_with_doc.
Proof.
  apply (delete_conflict_rolls_back "x" contested_with_doc "http://peer:3000/").
  - apply (store_invariant_insert ∅ {| _id := "x"; _rev := Some "1-0badcafe"; attrs := ∅ |}),
      store_invariant_empty.
  - simpl. by left.
  - reflexivity.
Defined.

End Routes.

(** ** What the routes keep and what the receiver touches *)

Section Preservation.

Lemma keeps_ret {A} (a : A) : keeps_invariant (ret a).
Proof. by intros w. Qed.

Lemma keeps_throw {A} (e : error) : keeps_invariant (@throw A e).
Proof. by intros w. Qed.

Lemma keeps_untracked {A} : keeps_invariant (@untracked A).
Proof. by intros w. Qed.

Lemma keeps_reads {A} (m : M A) : reads_only m → keeps_invariant m.
Proof. intros Hm w Hw. by rewrite Hm. Qed.

Lemma keeps_bind {A B} (m : M A) (f : A → M B) :
  keeps_invariant m → (∀ a, keeps_invariant (f a)) → keeps_invariant (bind m f).
Proof.
  intros Hm Hf w Hw. specialize (Hm w Hw). unfold bind.
  destruct (m w) as [[a|e|] w1]; simpl in *; [|done..]. by apply Hf.
Qed.

Lemma keeps_catch {A} (m : M A) (h : error → M A) :
  keeps_invariant m → (∀ e, keeps_invariant (h e)) → keeps_invariant (try_catch m h).
Proof.
  intros Hm Hh w Hw. specialize (Hm w Hw). unfold try_catch.
  destruct (m w) as [[a|e|] w1]; simpl in *; [done | | done]. by apply Hh.
Qed.

Lemma keeps_load (id : string) : keeps_invariant (load id).
Proof. by apply keeps_reads. Qed.

Lemma keeps_push (change : ReplicateMsg) : keeps_invariant (pushToPeers change).
Proof. by apply keeps_reads. Qed.

Lemma keeps_id_or_uuid (id : option string) : keeps_invariant (id_or_uuid id).
Proof. apply keeps_reads. intros w. rewrite id_or_uuid_run. apply after_key_kv. Qed.

Lemma keeps_casPut (id : string) (input : PartialDoc) : keeps_invariant (casPut id input).
Proof. intros w Hw. by apply store_invariant_kept. Qed.

Lemma keeps_casReplace (id : string) (doc : Doc) (expected : option string) :
  keeps_invariant (casReplace id doc expected).
Proof. intros w Hw. by apply store_invariant_kept. Qed.

Lemma keeps_casDelete (id : string) (prevRev : option string) :
  keeps_invariant (casDelete id prevRev).
Proof. intros w Hw. by apply store_invariant_kept. Qed.

Lemma keeps_applyRemotePut (doc : Doc) (prevRev : option string) :
  keeps_invariant (applyRemotePut doc prevRev).
Proof. intros w Hw. by apply store_invariant_kept. Qed.

Lemma keeps_applyRemoteDel (id : string) (prevRev : option string) :
  keeps_invariant (applyRemoteDel id prevRev).
Proof.
  intros w Hw. rewrite applyRemoteDel_run. destruct (JS.strict_ne _ _); [done|].
  destruct (stored_doc w id); [by apply store_invariant_delete | done].
Qed.

(** The store invariant, every value a document that carries its own
    key, survives every route and every exported engine operation,
    whatever their outcome. *)
Theorem routes_keep_invariant (w : World) :
  store_invariant (kv w) →
  (∀ body, store_invariant (kv (snd (docs_post body w)))) ∧
  (∀ id, store_invariant (kv (snd (docs_delete id w)))) ∧
  (∀ body, store_invariant (kv (snd (replicate_post body w)))) ∧
  (∀ input, store_invariant (kv (snd (put input w)))) ∧
  (∀ id, store_invariant (kv (snd (del id w)))) ∧
  (∀ id prevRev, store_invariant (kv (snd (applyRemoteDel id prevRev w)))).
Proof.
  intros Hw. repeat split.
  - intros body. revert w Hw. change (keeps_invariant (docs_post body)).
    unfold docs_post. apply keeps_bind; [apply keeps_id_or_uuid | intros id].
    apply keeps_catch; [|intros e; apply keeps_ret].
    apply keeps_bind; [|intros d; apply keeps_ret].
    unfold withDocTransaction, post_body. simpl.
    apply keeps_bind; [apply keeps_load | intros prev].
    apply keeps_bind; [apply keeps_casPut | intros saved].
    apply keeps_bind; [apply keeps_push | intros pushed].
    destruct (has_conflicts pushed); [|apply keeps_ret].
    apply keeps_bind; [|intros _; apply keeps_throw].
    destruct prev; [apply keeps_casReplace | apply keeps_casDelete].
  - intros id. revert w Hw. change (keeps_invariant (docs_delete id)).
    unfold docs_delete. apply keeps_catch; [|intros e; apply keeps_ret].
    apply keeps_bind; [|intros d; apply keeps_ret].
    unfold withDocTransaction, delete_body. simpl.
    apply keeps_bind; [apply keeps_load | intros prev].
    apply keeps_bind; [apply keeps_casDelete | intros _].
    apply keeps_bind; [apply keeps_push | intros pushed].
    destruct (has_conflicts pushed); [|apply keeps_ret].
    apply keeps_bind; [|intros _; apply keeps_throw].
    destruct prev; [apply keeps_casReplace | apply keeps_ret].
  - intros body. revert w Hw. change (keeps_invariant (replicate_post body)).
    unfold replicate_post. destruct body as [b|]; [|apply keeps_ret].
    destruct (_ || _); [apply keeps_ret|].
    apply keeps_catch; [|intros e; apply keeps_ret].
    destruct (negb (JS.strict_ne (op b) (Some "put"))).
    + destruct (body_doc b) as [doc|]; [|apply keeps_ret].
      destruct (_ || _); [apply keeps_ret|].
      destruct (doc_of_partial doc); [|apply keeps_untracked].
      apply keeps_bind; [apply keeps_applyRemotePut | intros _; apply keeps_ret].
    + destruct (negb (JS.strict_ne (op b) (Some "del"))); [|apply keeps_ret].
      destruct (body_id b); [|apply keeps_untracked].
      apply keeps_bind; [apply keeps_applyRemoteDel | intros _; apply keeps_ret].
  - intros input. revert w Hw. change (keeps_invariant (put input)).
    unfold put. apply keeps_bind; [apply keeps_id_or_uuid | intros id; apply keeps_casPut].
  - intros id. by apply store_invariant_delete.
  - intros id prevRev. by apply keeps_applyRemoteDel.
Qed.

Lemma routes_keep_invariant_witness :
  store_invariant
    (kv (snd (docs_post (Some {| p_id := Some "x"; p_rev := None; p_attrs := ∅ |})
                        lone_node))).
Proof.
  apply (proj1 (routes_keep_invariant lone_node store_invariant_empty)).
Defined.

Lemma only_touches_applyRemotePut (doc : Doc) (prevRev : option string) :
  only_touches (_id doc) (applyRemotePut doc prevRev).
Proof.
  intros w k Hk. rewrite applyRemotePut_run. destruct (negb _); [done|].
  destruct (JS.strict_ne _ _); simpl; [done | by rewrite lookup_insert_ne].
Qed.

Lemma only_touches_applyRemoteDel (id : string) (prevRev : option string) :
  only_touches id (applyRemoteDel id prevRev).
Proof.
  intros w k Hk. rewrite applyRemoteDel_run. destruct (JS.strict_ne _ _); [done|].
  destruct (stored_doc w id); simpl; [by rewrite lookup_delete_ne | done].
Qed.

Lemma only_touches_untracked {A} (id : string) : only_touches id (@untracked A).
Proof. by intros w k _. Qed.

(** [POST /replicate] changes nothing outside the key named by the
    [_id] of its body, whatever the body and whatever the outcome. *)
Theorem replicate_post_frame (body : option ReplicateBody) (w : World) (k : string) :
  (∀ b, body = Some b → body_id b ≠ Some k) →
  kv (snd (replicate_post body w)) !! k = kv w !! k.
Proof.
  destruct body as [b|]; [|done]. intros Hk. specialize (Hk b eq_refl).
  unfold replicate_post.
  destruct (body_id b) as [id|] eqn:Hid; [|by rewrite orb_true_r].
  destruct (_ || _); [done|].
  assert (k ≠ id) as Hne by congruence. clear Hk. revert w k Hne.
  change (only_touches id
            (try_catch
               (if negb (JS.strict_ne (op b) (Some "put"))
                then match body_doc b with
                     | Some doc =>
                         if JS.strict_ne (p_id doc) (Some id)
                            || JS.strict_ne (p_rev doc) (body_rev b)
                         then ret (bad_request "invalid put payload")
                         else match doc_of_partial doc with
                              | Some d => applyRemotePut d (body_prevRev b) ;;
                                          ret {| code := 200; payload := BodyOk |}
                              | None => untracked
                              end
                     | None => ret (bad_request "invalid put payload")
                     end
                else if negb (JS.strict_ne (op b) (Some "del"))
                     then applyRemoteDel id (body_prevRev b) ;;
                          ret {| code := 200; payload := BodyOk |}
                     else ret (bad_request "invalid op"))
               (λ e, ret {| code := status_or_500 e;
                            payload := BodyError (message_or e "error") |}))).
  apply only_touches_catch; [|intros e; apply only_touches_ret].
  destruct (negb (JS.strict_ne (op b) (Some "put"))).
  - destruct (body_doc b) as [doc|]; [|apply only_touches_ret].
    destruct (JS.strict_ne (p_id doc) (Some id)) eqn:Hpid; [apply only_touches_ret|].
    destruct (JS.strict_ne (p_rev doc) (body_rev b)); [apply only_touches_ret|].
    apply strict_ne_false in Hpid. unfold doc_of_partial. rewrite Hpid.
    apply only_touches_bind; [|intros _; apply only_touches_ret].
    apply (only_touches_applyRemotePut
             {| _id := id; _rev := p_rev doc; attrs := p_attrs doc |}).
  - destruct (negb (JS.strict_ne (op b) (Some "del"))); [|apply only_touches_ret].
    apply only_touches_bind; [apply only_touches_applyRemoteDel|].
    intros _. apply only_touches_ret.
Qed.

Lemma replicate_post_frame_witness :
  kv (snd (replicate_post (Some (wire (ReplicateDel "x" (Some "1-0badcafe"))))
                          contested_with_doc)) !! "y"
    = kv contested_with_doc !! "y".
Proof.
  apply (replicate_post_frame (Some (wire (ReplicateDel "x" (Some "1-0badcafe"))))
                              contested_with_doc "y").
  intros b [= <-]. discriminate.
Defined.

End Preservation.

(** ** A change record at the receiving peer *)

Section Convergence.

Lemma casPut_rev_truthy (id : string) (input : PartialDoc) (w w2 : World) (saved : Doc) :
  casPut id input w = (Ok saved, w2) → _id saved = id ∧ JS.truthy (_rev saved) = true.
Proof.
  intros (r & Hr & -> & _)%casPut_Ok. split; [done|]. simpl.
  destruct (nextRev_Ok _ _ _ _ Hr) as (_ & m & -> & _).
  apply truthy_Some, token_nonempty.
Qed.

(** The change record of a local write, as a peer receives it: a peer
    whose stored [_rev] for the [_id] agrees with the [_rev] the writer
    started from (an empty string read as absent) answers 200 and then
    holds the writer's saved document; any other peer answers 409 and
    keeps what it had. *)
Theorem put_change_at_peer
    (id : string) (input : PartialDoc) (w w2 peer : World) (saved : Doc) :
  id ≠ "" →
  casPut id input w = (Ok saved, w2) →
  let change := ReplicatePut (_id saved) (stored_doc w id ≫= _rev) (_rev saved) saved in
  (JS.or_undefined (stored_doc peer id ≫= _rev) =
     JS.or_undefined (stored_doc w id ≫= _rev) →
   replicate_post (Some (wire change)) peer =
     (Ok {| code := 200; payload := BodyOk |},
      with_kv peer (<[id := Json saved]> (kv peer)))) ∧
  (JS.or_undefined (stored_doc peer id ≫= _rev) ≠
     JS.or_undefined (stored_doc w id ≫= _rev) →
   replicate_post (Some (wire change)) peer =
     (Ok {| code := 409; payload := BodyError "conflict: revision mismatch" |}, peer)).
Proof.
  intros Hid Hput. destruct (casPut_rev_truthy _ _ _ _ _ Hput) as [Hsid Hrev].
  apply truthy_Some in Hid. cbv zeta. unfold replicate_post, wire.
  cbn [op body_id body_doc body_rev body_prevRev p_id p_rev p_attrs].
  rewrite Hsid, Hid, !strict_ne_refl. cbn [JS.truthy negb orb].
  unfold doc_of_partial. cbn [p_id p_rev p_attrs].
  change ("put" =? "") with false. cbn [negb orb].
  unfold try_catch, bind. rewrite applyRemotePut_run. cbn [_id _rev].
  rewrite Hrev. cbn [negb].
  replace (force_id {| _id := id; _rev := _rev saved; attrs := attrs saved |} id)
    with saved by (destruct saved; unfold force_id; simpl in *; congruence).
  split.
  - intros ->. by rewrite strict_ne_refl.
  - by intros ->%strict_ne_true.
Qed.

Lemma put_change_at_peer_witness :
  let saved := {| _id := "x"; _rev := Some "1-deadbeef"; attrs := ∅ |} in
  replicate_post (Some (wire (ReplicatePut "x" None (Some "1-deadbeef") saved)))
                 contested_node =
    (Ok {| code := 200; payload := BodyOk |},
     with_kv contested_node (<["x" := Json saved]> (kv contested_node))).
Proof.
  intros saved.
  apply (proj1 (put_change_at_peer "x" {| p_id := Some "x"; p_rev := None; p_attrs := ∅ |}
                  lone_node
                  (snd (casPut "x" {| p_id := Some "x"; p_rev := None; p_attrs := ∅ |}
                               lone_node))
                  contested_node saved ltac:(discriminate) eq_refl)).
  reflexivity.
Defined.

(** The change record of a local delete, as a peer receives it: a peer
    whose stored [_rev] agrees with the deleted document's answers 200
    and no longer has a readable document under the [_id]; any other peer
    answers 409 and keeps what it had. *)
Theorem del_change_at_peer (id : string) (w peer : World) :
  id ≠ "" →
  let change := ReplicateDel id (stored_doc w id ≫= _rev) in
  (JS.or_undefined (stored_doc peer id ≫= _rev) =
     JS.or_undefined (stored_doc w id ≫= _rev) →
   ∃ peer', replicate_post (Some (wire change)) peer =
              (Ok {| code := 200; payload := BodyOk |}, peer') ∧
            stored_doc peer' id = None) ∧
  (JS.or_undefined (stored_doc peer id ≫= _rev) ≠
     JS.or_undefined (stored_doc w id ≫= _rev) →
   replicate_post (Some (wire change)) peer =
     (Ok {| code := 409; payload := BodyError "conflict: revision mismatch" |}, peer)).
Proof.
  intros Hid%truthy_Some. cbv zeta. unfold replicate_post, wire.
  cbn [op body_id body_doc body_rev body_prevRev].
  rewrite Hid. change (JS.truthy (Some "del")) with true.
  change (JS.strict_ne (Some "del") (Some "put")) with true.
  change (JS.strict_ne (Some "del") (Some "del")) with false. cbn [negb orb].
  unfold try_catch, bind. rewrite applyRemoteDel_run. split.
  - intros ->. rewrite strict_ne_refl.
    exists (match stored_doc peer id with
            | Some _ => with_kv peer (delete id (kv peer))
            | None => peer
            end).
    split; [by destruct (stored_doc peer id) | apply deleted_if_present].
  - by intros ->%strict_ne_true.
Qed.

Lemma del_change_at_peer_witness :
  replicate_post (Some (wire (ReplicateDel "x" None))) contested_with_doc =
    (Ok {| code := 409; payload := BodyError "conflict: revision mismatch" |},
     contested_with_doc).
Proof.
  apply (proj2 (del_change_at_peer "x" lone_node contested_with_doc ltac:(discriminate))).
  discriminate.
Defined.

Lemma drop_last_slash_app (b : string) : drop_last_slash (b ++ "/") = Some b.
Proof.
  induction b as [|a b IH]; [done|].
  change (String a b ++ "/") with (String a (b ++ "/")).
  simpl. rewrite IH. by destruct (b ++ "/") eqn:E; [destruct b|].
Qed.

Lemma drop_last_slash_Some (base b : string) :
  drop_last_slash base = Some b → base = b ++ "/".
Proof.
  revert b. induction base as [|a rest IH]; [done|]. intros b. simpl.
  destruct rest as [|a' rest'].
  - destruct (Ascii.eqb_spec a "/") as [->|]; [by intros [= <-] | done].
  - destruct (drop_last_slash (String a' rest')) as [b'|]; [|done].
    simpl. intros [= <-]. by rewrite (IH b').
Qed.

(** The URL a change is posted to is the peer's base URL followed by
    [/replicate], with one trailing slash of the base, if there is one,
    left out. *)
Theorem peer_url_spec :
  (∀ b, peer_url (b ++ "/") = b ++ "/replicate") ∧
  (∀ base, (∀ b, base ≠ b ++ "/") → peer_url base = base ++ "/replicate").
Proof.
  split.
  - intros b. unfold peer_url. by rewrite drop_last_slash_app.
  - intros base Hno. unfold peer_url.
    destruct (drop_last_slash base) as [b|] eqn:E; [|done].
    by destruct (Hno b (drop_last_slash_Some _ _ E)).
Qed.

Lemma peer_url_spec_witness : peer_url "" = "/replicate".
Proof. apply (proj2 peer_url_spec ""). intros b. by destruct b. Defined.

End Convergence.

(** ** The mutex and the key listing *)

Section MutexAndKeys.

Lemma mutex_order (m0 : Mutex) (es : list mutex_event) :
  (locked m0 = false → queue m0 = []) →
  released_by_holder m0 es = true →
  (snd (mutex_run m0 es) ++ queue (fst (mutex_run m0 es)))%list
    = (queue m0 ++ arrivals es)%list ∧
  (length (snd (mutex_run m0 es)) + (if locked m0 then 1 else 0))%nat
    = (releases es + (if locked (fst (mutex_run m0 es)) then 1 else 0))%nat ∧
  (locked (fst (mutex_run m0 es)) = false → queue (fst (mutex_run m0 es)) = []).
Proof.
  revert m0. induction es as [|e rest IH]; intros m0 Hinv Hdisc.
  { simpl. rewrite app_nil_r. split; [done|]. split; [done | exact Hinv]. }
  cbn [released_by_holder] in Hdisc. apply andb_true_iff in Hdisc as [He Hrest].
  cbn [mutex_run]. 
  destruct m0 as [q l]. cbn [queue locked] in *.
  destruct e as [c|]; cbn [mutex_step arrivals releases] in *.
  - unfold acquire in *. cbn [queue locked] in *. destruct l; cbn [negb fst snd option_list] in *.
    + destruct (IH {| queue := (q ++ [c])%list; locked := true |}) as (Ho & Hc & Hi);
        [done | exact Hrest |]. cbn [queue locked] in *.
      split; [|split; [|done]].
      * simpl. rewrite Ho, <- app_assoc. done.
      * done.
    + destruct (IH {| queue := q; locked := true |}) as (Ho & Hc & Hi);
        [done | exact Hrest |]. cbn [queue locked] in *.
      rewrite (Hinv eq_refl) in *.
      split; [|split; [|done]].
      * simpl. by rewrite Ho.
      * simpl in *. lia.
  - subst l. unfold release in *. cbn [queue locked] in *.
    destruct q as [|next waiting]; cbn [fst snd option_list] in *.
    + destruct (IH {| queue := []; locked := false |}) as (Ho & Hc & Hi);
        [done | exact Hrest |]. cbn [queue locked] in *.
      split; [|split; [|done]].
      * done.
      * simpl in *. lia.
    + destruct (IH {| queue := waiting; locked := true |}) as (Ho & Hc & Hi);
        [done | exact Hrest |]. cbn [queue locked] in *.
      split; [|split; [|done]].
      * simpl. by rewrite Ho.
      * simpl in *. lia.
Qed.

(** From a new mutex, as long as [release] is only called while the lock
    is held: the callers that got the lock followed by those still queued
    are the callers of [acquire] in order of arrival, so the lock is
    handed over first come first served; the grants exceed the releases
    by one exactly while the mutex is locked, so there is never more than
    one holder; and an unlocked mutex has nobody waiting. *)
Theorem mutex_first_come_first_served (es : list mutex_event) :
  released_by_holder new_Mutex es = true →
  let m := fst (mutex_run new_Mutex es) in
  let granted := snd (mutex_run new_Mutex es) in
  (granted ++ queue m)%list = arrivals es ∧
  length granted = (releases es + (if isLocked m then 1 else 0))%nat ∧
  (isLocked m = false → queue m = []).
Proof.
  intros Hdisc. destruct (mutex_order new_Mutex es ltac:(done) Hdisc) as (Ho & Hc & Hi).
  cbv zeta. unfold isLocked. simpl in Ho, Hc. split; [done|]. split; [lia | done].
Qed.

Lemma mutex_first_come_first_served_witness :
  let es := [Acquire 1; Acquire 2; Acquire 3; Release; Release] in
  let m := fst (mutex_run new_Mutex es) in
  let granted := snd (mutex_run new_Mutex es) in
  (granted ++ queue m)%list = [1; 2; 3]%nat ∧
  length granted = (2 + (if isLocked m then 1 else 0))%nat ∧
  (isLocked m = false → queue m = []).
Proof.
  intros es m granted.
  apply (mutex_first_come_first_served es). reflexivity.
Defined.

Lemma Sorted_take {A} (R : relation A) (l : list A) (n : nat) :
  Sorted R l → Sorted R (take n l).
Proof.
  intros Hs. revert n. induction Hs as [|x l Hs IH Hd]; intros [|n]; simpl;
    try constructor; auto.
  destruct Hd; destruct n; simpl; constructor; auto.
Qed.

(** [listIds(limit)] never fails and changes nothing; it returns
    [min(limit, number of keys)] ids, without repetition, in bytewise
    key order, each of them a key of the store and none of them after a
    key that was left out; with a limit of at least the number of keys it
    returns every key. *)
Theorem listIds_spec (limit : nat) (w : World) :
  ∃ ids, listIds limit w = (Ok ids, w) ∧
         length ids = min limit (size (kv w)) ∧
         NoDup ids ∧
         Sorted String.le ids ∧
         (∀ id, id ∈ ids → is_Some (kv w !! id)) ∧
         (∀ id k, id ∈ ids → is_Some (kv w !! k) → k ∉ ids → String.le id k) ∧
         ((size (kv w) ≤ limit)%nat → ∀ k, is_Some (kv w !! k) → k ∈ ids).
Proof.
  set (keys := map fst (map_to_list (kv w))).
  set (sorted := merge_sort String.le keys).
  assert (sorted ≡ₚ keys) as Hperm by apply merge_sort_Permutation.
  assert (∀ k, k ∈ sorted ↔ is_Some (kv w !! k)) as Hkeys.
  { intros k. rewrite Hperm. unfold keys. rewrite list_elem_of_fmap. split.
    - intros ([k' v] & -> & Hin%elem_of_map_to_list). by exists v.
    - intros [v Hv]. exists (k, v). split; [done | by apply elem_of_map_to_list]. }
  assert (length sorted = size (kv w)) as Hlen.
  { rewrite Hperm. unfold keys. by rewrite length_map, length_map_to_list. }
  assert (StronglySorted String.le sorted) as Hsorted
    by (apply StronglySorted_merge_sort; apply _).
  exists (take limit sorted). split; [done|]. split; [|split; [|split; [|split; [|split]]]].
  - by rewrite length_take, Hlen.
  - apply (sublist_NoDup _ sorted); [|apply sublist_take].
    rewrite Hperm. apply (NoDup_fst_map_to_list (kv w)).
  - apply Sorted_take, Sorted_merge_sort; apply _.
  - intros id Hin. apply Hkeys. apply (elem_of_sublist _ _ _ Hin), sublist_take.
  - intros id k Hin Hk Hout. apply Hkeys in Hk.
    rewrite <- (take_drop limit sorted) in Hk, Hsorted.
    apply elem_of_app in Hk as [Hk | Hk]; [done|].
    by apply (StronglySorted_app_1_elem_of _ _ _ _ _ Hsorted).
  - intros Hle k Hk. rewrite take_ge by lia. by apply Hkeys.
Qed.

Lemma listIds_spec_witness :
  ∃ ids, listIds 0 contested_with_doc = (Ok ids, contested_with_doc) ∧ length ids = 0%nat.
Proof.
  destruct (listIds_spec 0 contested_with_doc) as (ids & Hrun & Hlen & _).
  exists ids. split; [exact Hrun | exact Hlen].
Defined.

End MutexAndKeys.

(** ** Bearer tokens *)

Section Tokens.

Lemma trim_start_length (s : string) :
  (String.length (Text.trim_start s) ≤ String.length s)%nat.
Proof.
  induction s as [|c s IH]; simpl; [done|]. destruct (Text.is_space c); simpl; lia.
Qed.

Lemma trim_end_length (s : string) :
  (String.length (Text.trim_end s) ≤ String.length s)%nat.
Proof.
  induction s as [|c s IH]; simpl; [done|].
  destruct (Text.trim_end s); [destruct (Text.is_space c)|]; simpl in *; lia.
Qed.

Lemma trim_end_idem (s : string) : Text.trim_end (Text.trim_end s) = Text.trim_end s.
Proof.
  induction s as [|c s IH]; simpl; [done|].
  destruct (Text.trim_end s) as [|c' r] eqn:E.
  - destruct (Text.is_space c) eqn:Hc; simpl; [done | by rewrite Hc].
  - change (Text.trim_end (String c (String c' r)) = String c (String c' r)).
    simpl. simpl in IH. by rewrite IH.
Qed.

Lemma trim_start_no_lead (s : string) : no_lead (Text.trim_start s).
Proof.
  induction s as [|c s IH]; simpl; [done|]. by destruct (Text.is_space c) eqn:E.
Qed.

Lemma trim_start_fixed (s : string) : no_lead s → Text.trim_start s = s.
Proof. destruct s as [|c s]; simpl; [done | by intros ->]. Qed.

Lemma trim_end_no_lead (s : string) : no_lead s → no_lead (Text.trim_end s).
Proof.
  destruct s as [|c s]; simpl; [done|]. intros Hc.
  destruct (Text.trim_end s); by rewrite ?Hc.
Qed.

Lemma trim_no_lead (s : string) : no_lead (Text.trim s).
Proof. apply trim_end_no_lead, trim_start_no_lead. Qed.

Lemma trim_idem (s : string) : Text.trim (Text.trim s) = Text.trim s.
Proof.
  unfold Text.trim at 1. rewrite (trim_start_fixed _ (trim_no_lead s)).
  apply trim_end_idem.
Qed.

Lemma trimmed_no_lead (t : string) : Text.trim t = t → no_lead t.
Proof. intros <-. apply trim_no_lead. Qed.

Lemma trimmed_end (t : string) : Text.trim t = t → Text.trim_end t = t.
Proof. intros <-. unfold Text.trim. apply trim_end_idem. Qed.

Lemma trim_start_pad (pad s : string) :
  all Text.is_space pad = true → Text.trim_start (pad ++ s) = Text.trim_start s.
Proof.
  induction pad as [|c pad IH]; simpl; [done|].
  intros [-> ?]%andb_true_iff. auto.
Qed.

Lemma trim_end_all_space (pad : string) :
  all Text.is_space pad = true → Text.trim_end pad = "".
Proof.
  induction pad as [|c pad IH]; simpl; [done|].
  intros [-> Hp]%andb_true_iff. by rewrite (IH Hp).
Qed.

Lemma trim_end_app (s pad : string) :
  all Text.is_space pad = true → Text.trim_end (s ++ pad) = Text.trim_end s.
Proof.
  intros Hp. induction s as [|c s IH]; simpl; [by apply trim_end_all_space|].
  by rewrite IH.
Qed.

Lemma trim_padded (pad1 t pad2 : string) :
  all Text.is_space pad1 = true → all Text.is_space pad2 = true →
  t ≠ "" → Text.trim t = t →
  Text.trim (pad1 ++ t ++ pad2) = t.
Proof.
  intros H1 H2 Hne Ht. unfold Text.trim. rewrite trim_start_pad by done.
  pose proof (trimmed_no_lead t Ht) as Hl.
  rewrite trim_start_fixed.
  - rewrite trim_end_app by done. by apply trimmed_end.
  - destruct t; [done | exact Hl].
Qed.

Lemma prefix_split (p s : string) :
  String.prefix p s = true → ∃ rest, s = p ++ rest.
Proof.
  revert s. induction p as [|a p IH]; intros s; simpl.
  - intros _. by exists s.
  - destruct s as [|b s]; simpl; [done|].
    destruct (ascii_dec a b) as [->|]; [|done].
    intros [rest ->]%IH. exists rest. reflexivity.
Qed.

Lemma prefix_app (p rest : string) : String.prefix p (p ++ rest) = true.
Proof.
  induction p as [|a p IH].
  - by destruct rest.
  - change (String a p ++ rest) with (String a (p ++ rest)). simpl.
    by destruct (ascii_dec a a).
Qed.

Lemma toLowerCase_app (a b : string) :
  Text.toLowerCase (a ++ b) = Text.toLowerCase a ++ Text.toLowerCase b.
Proof. induction a as [|c a IH]; simpl; [done | by rewrite IH]. Qed.

Lemma toLowerCase_length (s : string) :
  String.length (Text.toLowerCase s) = String.length s.
Proof. induction s as [|c s IH]; simpl; [done | by rewrite IH]. Qed.

Lemma slice_from_app (a b : string) : Text.slice_from (String.length a) (a ++ b) = b.
Proof. induction a as [|c a IH]; simpl; [by destruct b | done]. Qed.

Lemma lower_prefix (p s : string) :
  String.prefix p (Text.toLowerCase s) = true →
  ∃ a b, s = a ++ b ∧ Text.toLowerCase a = p ∧ Text.slice_from (String.length p) s = b.
Proof.
  revert s. induction p as [|c p IH]; intros s.
  - intros _. by exists "", s.
  - destruct s as [|x s]; simpl; [done|].
    destruct (ascii_dec c (Text.lower_char x)) as [->|]; [|done].
    intros (a & b & Hs & Ha & Hb)%IH. exists (String x a), b.
    split; [by rewrite Hs|]. split; [simpl; by rewrite Ha | exact Hb].
Qed.

(** The branch of [authMiddleware] that tests for ["Bearer "] is never
    the one that decides: such a header already passes the test on its
    lower-cased text. *)
Lemma Bearer_is_bearer (parts : string) :
  Text.startsWith "Bearer " parts = true →
  Text.startsWith "bearer " (Text.toLowerCase parts) = true.
Proof.
  intros [rest ->]%prefix_split. rewrite toLowerCase_app.
  apply (prefix_app "bearer ").
Qed.

Lemma auth_sound (tokens : list string) (h : header) (t : string) :
  authMiddleware tokens h = Passed t →
  t ∈ tokens ∧ t ≠ "" ∧
  ∃ scheme rest, first_value h = Some (scheme ++ rest) ∧
                 Text.toLowerCase scheme = "bearer " ∧ t = Text.trim rest.
Proof.
  unfold authMiddleware. fold (first_value h).
  destruct (first_value h) as [parts|]; [|done].
  destruct (Text.startsWith "bearer " (Text.toLowerCase parts)) eqn:Hlow.
  - cbn [fmap option_fmap option_map].
    destruct (nonempty _) eqn:Hne; [|done]. cbn [negb orb].
    destruct (bool_decide _) eqn:Hin; [|done]. cbn [negb]. intros [= <-].
    apply bool_decide_eq_true in Hin. apply truthy_Some in Hne.
    split; [done|]. split; [done|].
    destruct (lower_prefix _ _ Hlow) as (a & b & -> & Ha & Hb).
    exists a, b. split; [done|]. split; [done|]. f_equal. exact Hb.
  - destruct (Text.startsWith "Bearer " parts) eqn:Hcap; [|done].
    by rewrite (Bearer_is_bearer _ Hcap) in Hlow.
Qed.

Lemma auth_accepts (tokens : list string) (scheme pad1 t pad2 : string) :
  Text.toLowerCase scheme = "bearer " →
  all Text.is_space pad1 = true → all Text.is_space pad2 = true →
  t ∈ tokens → t ≠ "" → Text.trim t = t →
  authMiddleware tokens (HeaderText (scheme ++ pad1 ++ t ++ pad2)) = Passed t.
Proof.
  intros Hs H1 H2 Hin Hne Ht. unfold authMiddleware.
  assert (String.length scheme = 7%nat) as Hlen.
  { by rewrite <- toLowerCase_length, Hs. }
  assert (Text.startsWith "bearer " (Text.toLowerCase (scheme ++ pad1 ++ t ++ pad2)) = true)
    as ->.
  { rewrite toLowerCase_app, Hs. apply (prefix_app "bearer "). }
  assert (Text.slice_from 7 (scheme ++ pad1 ++ t ++ pad2) = pad1 ++ t ++ pad2) as ->.
  { rewrite <- Hlen. apply slice_from_app. }
  cbn [fmap option_fmap option_map]. rewrite trim_padded by done.
  apply truthy_Some in Hne. unfold nonempty. rewrite Hne.
  by rewrite bool_decide_eq_true_2.
Qed.

(** [authMiddleware] lets a request through only with a token of the
    configured set: the first value of the [Authorization] header is
    then the word [bearer] in any mix of cases, one space, and text
    whose trimmed form is that token, which is not empty. Conversely
    every such header is let through, whatever white space surrounds
    the token. *)
Theorem authMiddleware_spec (tokens : list string) :
  (∀ h t, authMiddleware tokens h = Passed t →
     t ∈ tokens ∧ t ≠ "" ∧
     ∃ scheme rest, first_value h = Some (scheme ++ rest) ∧
                    Text.toLowerCase scheme = "bearer " ∧ t = Text.trim rest) ∧
  (∀ scheme pad1 t pad2,
     Text.toLowerCase scheme = "bearer " →
     all Text.is_space pad1 = true → all Text.is_space pad2 = true →
     t ∈ tokens → t ≠ "" → Text.trim t = t →
     authMiddleware tokens (HeaderText (scheme ++ pad1 ++ t ++ pad2)) = Passed t).
Proof. split; [apply auth_sound | apply auth_accepts]. Qed.

Lemma authMiddleware_spec_witness :
  authMiddleware ["s3cret"] (HeaderText ("BEARER " ++ "  " ++ "s3cret" ++ " ")) = Passed "s3cret".
Proof.
  apply (proj2 (authMiddleware_spec ["s3cret"]) "BEARER " "  " "s3cret" " ");
    (reflexivity || discriminate || by left).
Defined.

Lemma append_empty (s : string) : s ++ "" = s.
Proof. induction s as [|c s IH]; [done|]. change (String c s ++ "") with (String c (s ++ "")). by rewrite IH. Qed.

Lemma add_token_elem (l : list string) (x t : string) :
  t ∈ add_token l x ↔ t ∈ l ∨ t = x.
Proof.
  unfold add_token. case_bool_decide as Hx.
  - split; [by left | intros [? | ->]; done].
  - rewrite elem_of_app, list_elem_of_singleton. done.
Qed.

Lemma loaded_elem (l ts : list string) (t : string) :
  t ∈ foldl add_token l ts ↔ t ∈ l ∨ t ∈ ts.
Proof.
  revert l. induction ts as [|x ts IH]; intros l; simpl.
  - split; [by left | intros [? | ?%elem_of_nil]; done].
  - rewrite IH, add_token_elem, elem_of_cons. tauto.
Qed.

Lemma add_token_NoDup (l : list string) (x : string) : NoDup l → NoDup (add_token l x).
Proof.
  intros Hl. unfold add_token. case_bool_decide as Hx; [done|].
  apply NoDup_app. split; [done|]. split; [|apply NoDup_singleton].
  intros y Hy ->%list_elem_of_singleton. done.
Qed.

Lemma loaded_NoDup (l ts : list string) : NoDup l → NoDup (foldl add_token l ts).
Proof.
  revert l. induction ts as [|x ts IH]; intros l Hl; simpl; [done|].
  by apply IH, add_token_NoDup.
Qed.

Lemma trimmed_pieces_clean (keep : string → bool) (pieces : list string) (t : string) :
  (∀ s, keep s = true → nonempty s = true) →
  t ∈ List.filter keep (map Text.trim pieces) → clean t.
Proof.
  intros Hkeep [Hin Hk]%list_elem_of_In%filter_In.
  apply list_elem_of_In, list_elem_of_fmap in Hin as (x & -> & _).
  split; [by apply truthy_Some, Hkeep | apply trim_idem].
Qed.

(** Every token that [loadTokens] loads is non-empty and free of
    surrounding white space, no token is held twice, and the token a
    node sends to its peers, the first of its set behind ["Bearer "], is
    let through by [authMiddleware] on a node with the same set. *)
Theorem loadTokens_spec (env : TokenEnv) :
  (∀ t, t ∈ loadTokens env → t ≠ "" ∧ Text.trim t = t) ∧
  NoDup (loadTokens env) ∧
  (∀ t, getLocalAuthToken (loadTokens env) = Some t →
        authMiddleware (loadTokens env) (HeaderText ("Bearer " ++ t)) = Passed t).
Proof.
  assert (∀ t, t ∈ loadTokens env → clean t) as Hclean.
  { intros t. unfold loadTokens. cbv zeta.
    set (fromEnv := List.filter nonempty
           (map Text.trim (Text.split "," (default "" (or_else (POTDB_TOKENS env) (Some "")))))).
    set (single := Text.trim (default "" (or_else (POTDB_TOKEN env) (Some "")))).
    set (filePath := Text.trim (default "" (or_else (POTDB_TOKENS_FILE env) (Some "")))).
    set (t1 := foldl add_token [] fromEnv).
    set (t2 := if nonempty single then add_token t1 single else t1).
    assert (∀ x, x ∈ t1 → clean x) as H1.
    { intros x [?%elem_of_nil | Hx]%loaded_elem; [done|].
      by apply (trimmed_pieces_clean nonempty _ x) in Hx. }
    assert (∀ x, x ∈ t2 → clean x) as H2.
    { intros x. unfold t2. destruct (nonempty single) eqn:Hs; [|apply H1].
      intros [Hx | ->]%add_token_elem; [by apply H1|].
      split; [by apply truthy_Some | apply trim_idem]. }
    destruct (nonempty filePath); [|apply H2].
    destruct (read_file env filePath) as [contents|]; [|apply H2].
    intros [Hx | Hx]%loaded_elem; [by apply H2|].
    apply (trimmed_pieces_clean _ _ t) in Hx; [done|].
    by intros s [? _]%andb_true_iff. }
  split; [exact Hclean|]. split.
  - unfold loadTokens. cbv zeta.
    set (t1 := foldl add_token [] _).
    set (single := Text.trim (default "" (or_else (POTDB_TOKEN env) (Some "")))).
    set (filePath := Text.trim (default "" (or_else (POTDB_TOKENS_FILE env) (Some "")))).
    assert (NoDup t1) as H1 by apply loaded_NoDup, NoDup_nil_2.
    assert (NoDup (if nonempty single then add_token t1 single else t1)) as H2.
    { destruct (nonempty single); [by apply add_token_NoDup | done]. }
    destruct (nonempty filePath); [|done].
    destruct (read_file env filePath); [by apply loaded_NoDup | done].
  - intros t Hhead. unfold getLocalAuthToken in Hhead.
    assert (t ∈ loadTokens env) as Hin.
    { destruct (loadTokens env); simplify_eq/=. by left. }
    destruct (Hclean t Hin) as [Hne Ht].
    pose proof (auth_accepts (loadTokens env) "Bearer " "" t "" eq_refl eq_refl eq_refl
                  Hin Hne Ht) as H.
    change ("" ++ t ++ "") with (t ++ "") in H. by rewrite append_empty in H.
Qed.

End Tokens.

(** ** The application gate and the peer list *)

Section AppAndPeers.

Lemma loadTokens_spec_witness :
  let env := {| POTDB_TOKENS := Some " alpha , beta,,alpha"; POTDB_TOKEN := None;
                POTDB_TOKENS_FILE := None; read_file := λ _, None |} in
  authMiddleware (loadTokens env) (HeaderText ("Bearer " ++ "alpha")) = Passed "alpha".
Proof.
  intros env. apply (proj2 (proj2 (loadTokens_spec env)) "alpha"). reflexivity.
Defined.

(** [createApp] runs a route, the health check included, only for a
    request whose [Authorization] header carries a token of the
    configured set; every other request is answered 401, or 500 when the
    middleware throws, and leaves the world as it was. *)
Theorem createApp_gate (tokens : list string) (authorization : header) (req : request)
    (w : World) :
  (∃ t, t ∈ tokens ∧ t ≠ "" ∧ authMiddleware tokens authorization = Passed t) ∨
  createApp tokens authorization req w = (Ok Unauthorized, w) ∨
  createApp tokens authorization req w = (Ok ServerError, w).
Proof.
  unfold createApp. destruct (authMiddleware tokens authorization) as [|t|] eqn:E.
  - right. by left.
  - left. exists t. by destruct (auth_sound _ _ _ E) as (? & ? & _).
  - right. by right.
Qed.

Lemma split_nonempty (sep : ascii) (s : string) : Text.split sep s ≠ [].
Proof.
  induction s as [|c s IH]; simpl; [done|].
  destruct (Ascii.eqb c sep); [done|]. by destruct (Text.split sep s).
Qed.

Lemma split_no_sep (sep : ascii) (s piece : string) :
  piece ∈ Text.split sep s → JS.mem sep piece = false.
Proof.
  revert piece. induction s as [|c s IH]; intros piece; simpl.
  - by intros ->%list_elem_of_singleton.
  - destruct (Ascii.eqb c sep) eqn:Hc.
    + intros [-> | Hin]%elem_of_cons; [done | by apply IH].
    + destruct (Text.split sep s) as [|p0 ps] eqn:E; simpl.
      * intros ->%list_elem_of_singleton. simpl. by rewrite Hc.
      * intros [-> | Hin]%elem_of_cons.
        -- simpl. rewrite Hc. apply IH. by left.
        -- apply IH. by right.
Qed.

Lemma mem_trim_start (c : ascii) (s : string) :
  JS.mem c s = false → JS.mem c (Text.trim_start s) = false.
Proof.
  induction s as [|x s IH]; simpl; [done|].
  intros [Hx Hs]%orb_false_iff. destruct (Text.is_space x); [by apply IH|].
  simpl. by rewrite Hx, Hs.
Qed.

Lemma mem_trim_end (c : ascii) (s : string) :
  JS.mem c s = false → JS.mem c (Text.trim_end s) = false.
Proof.
  induction s as [|x s IH]; simpl; [done|].
  intros [Hx Hs]%orb_false_iff. specialize (IH Hs).
  destruct (Text.trim_end s) as [|y r].
  - destruct (Text.is_space x); simpl; [done | by rewrite Hx].
  - simpl in *. by rewrite Hx, IH.
Qed.

(** Every peer that [parsePeers] returns is non-empty and free of
    surrounding white space, and when the input was one string, free of
    commas. *)
Theorem parsePeers_spec (raw : raw_peers) (p : string) :
  p ∈ parsePeers raw →
  p ≠ "" ∧ Text.trim p = p ∧ (∀ s, raw = RawText s → JS.mem "," p = false).
Proof.
  intros Hin.
  assert (clean p) as [Hne Ht].
  { destruct raw as [|s|items]; simpl in Hin.
    - by apply elem_of_nil in Hin.
    - destruct (nonempty s); [|by apply elem_of_nil in Hin].
      by apply (trimmed_pieces_clean nonempty _ p) in Hin.
    - by apply (trimmed_pieces_clean nonempty _ p) in Hin. }
  split; [done|]. split; [done|]. intros s ->. simpl in Hin.
  destruct (nonempty s); [|by apply elem_of_nil in Hin].
  apply list_elem_of_In, filter_In in Hin as [Hin _].
  apply list_elem_of_In, list_elem_of_fmap in Hin as (piece & -> & Hpiece).
  apply mem_trim_end, mem_trim_start. by apply (split_no_sep _ s).
Qed.

Lemma parsePeers_spec_witness :
  "http://b:3000" ≠ "" ∧ Text.trim "http://b:3000" = "http://b:3000" ∧
  (∀ s, RawText " http://a:3000 ,, http://b:3000" = RawText s →
        JS.mem "," "http://b:3000" = false).
Proof.
  apply (parsePeers_spec (RawText " http://a:3000 ,, http://b:3000") "http://b:3000").
  vm_compute. right. left.
Defined.

End AppAndPeers.

Section Autodiscovery.

Lemma split_last_None (c : ascii) (t : string) :
  JS.mem c t = false → Text.split_last c t = None.
Proof.
  induction t as [|x t IH]; simpl; [done|].
  intros [Hx Ht]%orb_false_iff. by rewrite (IH Ht), Hx.
Qed.

Lemma split_last_app (c : ascii) (a t : string) :
  JS.mem c t = false → Text.split_last c (a ++ String c t) = Some (a, t).
Proof.
  intros Ht. induction a as [|x a IH].
  - simpl. by rewrite (split_last_None c t Ht), Ascii.eqb_refl.
  - change (String x a ++ String c t) with (String x (a ++ String c t)).
    simpl. by rewrite IH.
Qed.

Lemma digits_all_digit (d : uint) : all Text.is_digit (NilEmpty.string_of_uint d) = true.
Proof. induction d; simpl; auto. Qed.

Lemma digit_not_space (c : ascii) : Text.is_digit c = true → Text.is_space c = false.
Proof.
  unfold Text.is_digit, Text.is_space. cbv zeta.
  intros [H1 H2]%andb_true_iff. apply Nat.leb_le in H1, H2.
  repeat (apply orb_false_iff; split).
  - apply andb_false_iff. right. apply Nat.leb_gt. lia.
  - apply Nat.eqb_neq. lia.
  - apply Nat.eqb_neq. lia.
Qed.

Lemma trim_end_digits (s : string) :
  all Text.is_digit s = true → Text.trim_end s = s.
Proof.
  induction s as [|c s IH]; simpl; [done|].
  intros [Hc Hs]%andb_true_iff. rewrite (IH Hs), (digit_not_space c Hc).
  by destruct s.
Qed.

Lemma trim_end_keeps (a b : string) :
  b ≠ "" → Text.trim_end b = b → Text.trim_end (a ++ b) = a ++ b.
Proof.
  intros Hne Hb. induction a as [|c a IH]; [done|].
  change (String c a ++ b) with (String c (a ++ b)). simpl. rewrite IH.
  destruct (a ++ b) eqn:E; [|done]. by destruct a, b.
Qed.

Lemma host_trimmed (base : string) (n : N) :
  no_lead (base ++ "-") →
  Text.trim (base ++ "-" ++ decimal n) = base ++ "-" ++ decimal n.
Proof.
  intros Hl. unfold Text.trim. rewrite trim_start_fixed.
  - change (base ++ "-" ++ decimal n) with (base ++ String "-" (decimal n)).
    apply trim_end_keeps; [done|].
    change (Text.trim_end (String "-" (decimal n)) = String "-" (decimal n)).
    simpl. rewrite (trim_end_digits (decimal n)) by apply digits_all_digit.
    pose proof (decimal_nonempty n). by destruct (decimal n).
  - destruct base; [done | exact Hl].
Qed.

Lemma seq_urls_length {A} (f : nat → A) (n : nat) : length (map f (seq 0 n)) = n.
Proof. by rewrite length_map, length_seq. Qed.

(** With no peers configured, a pod named [<base>-<n>] finds as its
    peers the pods [<base>-0] to [<base>-(n-1)], in that order and under
    one scheme, service suffix and port: as many peers as its ordinal,
    none for the pod of ordinal 0, and never itself. *)
Theorem loadConfig_autodiscovers (env : ConfigEnv) (base port : string) (n : N) :
  JS.truthy (POTDB_PEERS env) = false →
  JS.truthy (POTDB_CONFIG_FILE env) = false →
  HOSTNAME env = Some (base ++ "-" ++ decimal n) →
  no_lead (base ++ "-") →
  JS.any Text.is_line_break base = false →
  (n ≤ JS.max_exact)%N →
  (JS.truthy (or_else (PORT env) (POTDB_PORT env)) = false ∧ port = "3000") ∨
  (∃ p, or_else (PORT env) (POTDB_PORT env) = Some (decimal p) ∧
        (p ≤ JS.max_exact)%N ∧ port = decimal p) →
  ∃ scheme suffix,
    loadConfig env =
      Some (map (λ i, scheme ++ "://" ++ (base ++ "-" ++ decimal (N.of_nat i) ++ suffix)
                        ++ ":" ++ port)
                (seq 0 (N.to_nat n))) ∧
    ∀ i, (i < N.to_nat n)%nat → decimal (N.of_nat i) ≠ decimal n.
Proof.
  intros Hpeers Hcfg Hhost Hlead Hbreak Hn Hport.
  set (scheme := Text.drop_scheme_suffix
                   (default "" (or_else (POTDB_SCHEME env)
                                        (or_else (POTDB_PEER_SCHEME env) (Some "http"))))).
  set (svc := Text.trim (default "" (or_else (POTDB_K8S_HEADLESS_SERVICE env) (Some "")))).
  exists scheme, (if nonempty svc then "." ++ svc else "").
  split.
  2:{ intros i Hi Heq.
      pose proof (generation_of_token (N.of_nat i) "") as H1.
      rewrite Heq, generation_of_token in H1. injection H1. lia. }
  assert (parsePeers match POTDB_PEERS env with
                     | Some s => RawText s
                     | None => RawAbsent
                     end = []) as Hnone.
  { destruct (POTDB_PEERS env) as [s|]; [|done]. simpl. unfold nonempty. by rewrite Hpeers. }
  assert (Text.trim (default "" (or_else (POTDB_CONFIG_FILE env) (Some ""))) = "") as Hpath.
  { unfold or_else. rewrite Hcfg. done. }
  unfold loadConfig. rewrite Hnone, Hpath. cbn [nonempty JS.truthy String.eqb negb].
  unfold autodiscover.
  assert (Text.trim (default "" (or_else (HOSTNAME env) (Some "")))
          = base ++ "-" ++ decimal n) as ->.
  { rewrite Hhost. unfold or_else.
    assert (JS.truthy (Some (base ++ "-" ++ decimal n)) = true) as ->.
    { apply truthy_Some. by destruct base. }
    simpl. by apply host_trimmed. }
  assert (match_ordinal (base ++ "-" ++ decimal n) = Some (base, decimal n)) as ->.
  { unfold match_ordinal.
    change (base ++ "-" ++ decimal n) with (base ++ String "-" (decimal n)).
    rewrite split_last_app by apply digits_no_dash.
    unfold nonempty. rewrite (proj2 (truthy_Some _) (decimal_nonempty n)).
    unfold decimal. by rewrite digits_all_digit, Hbreak. }
  rewrite Number_decimal by done.
  destruct (0 <? n)%N eqn:Hpos.
  2:{ apply N.ltb_ge in Hpos. assert (n = 0%N) as -> by lia. done. }
  fold scheme svc.
  assert (JS.toString match or_else (PORT env) (POTDB_PORT env) with
                      | Some p => if nonempty p then JS.Number p else JS.Exact 3000
                      | None => JS.Exact 3000
                      end = Some port) as ->.
  { destruct Hport as [[Hp ->] | (p & -> & Hp & ->)].
    - destruct (or_else (PORT env) (POTDB_PORT env)) as [x|]; [|done].
      unfold nonempty. by rewrite Hp.
    - unfold nonempty. rewrite (proj2 (truthy_Some _) (decimal_nonempty p)).
      by rewrite Number_decimal. }
  f_equal. apply map_ext. intros i.
  change (negb (svc =? "")) with (nonempty svc).
  destruct (nonempty svc); [reflexivity|]. by rewrite append_empty.
Qed.

Lemma loadConfig_autodiscovers_witness :
  let env := {| POTDB_PEERS := None; POTDB_CONFIG_FILE := None;
                read_config := λ _, None; HOSTNAME := Some "potdb-2";
                POTDB_SCHEME := None; POTDB_PEER_SCHEME := None;
                PORT := None; POTDB_PORT := None;
                POTDB_K8S_HEADLESS_SERVICE := None |} in
  ∃ scheme suffix,
    loadConfig env =
      Some (map (λ i, scheme ++ "://" ++ ("potdb" ++ "-" ++ decimal (N.of_nat i) ++ suffix)
                        ++ ":" ++ "3000")
                (seq 0 (N.to_nat 2))) ∧
    ∀ i, (i < N.to_nat 2)%nat → decimal (N.of_nat i) ≠ decimal 2.
Proof.
  intros env.
  apply (loadConfig_autodiscovers env "potdb" "3000" 2);
    try reflexivity; [vm_compute; discriminate | by left].
Defined.

End Autodiscovery.
